(** * array-utils.js: sum, findDuplicates, count

    A shallow embedding of [src/array-utils.js] together with the part of the
    ECMAScript host semantics the three functions rely on ([Number],
    [String], [JSON.stringify], [Array.isArray], [Map], [Set], null-prototype
    objects), followed by the properties of the three functions. *)

From Stdlib Require Import ZArith Ascii String List Lia.
From Stdlib Require Import SpecFloat.
From stdpp Require Import base decidable countable gmap strings list fin_maps sorting.

Local Open Scope string_scope.

(** ** JavaScript numbers

    A JavaScript number is an IEEE-754 binary64 value.  It is modelled by
    [spec_float], the inductive specification of floating-point numbers of
    the standard library, at precision 53 and maximal exponent 1024.  There
    is one [NaN], as in JavaScript. *)

Module JSNumber.

Abbreviation number := spec_float.

Definition prec : Z := 53.
Definition emax : Z := 1024.

Definition NaN : number := S754_nan.
Definition pos_zero : number := S754_zero false.
Definition neg_zero : number := S754_zero true.

(** [x + y] on numbers: round-to-nearest, ties-to-even. *)
Definition add (x y : number) : number := SFadd prec emax x y.

(** [Number.isNaN]. *)
Definition isNaN (x : number) : bool :=
  match x with S754_nan => true | _ => false end.

(** The number with mathematical value [m * 10 ^ e], correctly rounded;
    [neg] is the sign, also of a zero result. *)
Definition of_decimal (neg : bool) (m : N) (e : Z) : number :=
  match m with
  | N0 => S754_zero neg
  | Npos p =>
      if (0 <=? e)%Z
      then binary_round prec emax neg (p * Z.to_pos (10 ^ e)) 0
      else
        let '(q, e', l) :=
          SFdiv_core_binary prec emax (Zpos p) 0 (10 ^ (- e)) 0 in
        binary_round_aux prec emax neg q e' l
  end.

(** The number of an integer. *)
Definition of_Z (z : Z) : number := binary_normalize prec emax z 0 false.

End JSNumber.

Import JSNumber.

(** ** JavaScript values

    The elements the helpers are written for are primitives (numbers,
    strings, booleans); [undefined], [null] and references to plain objects
    are included since an array can hold them too.  [VObj r] is the
    reference [r] to an ordinary object without own properties (as created
    by [{}]), so that the conversions of [Object.prototype] apply to it.
    A string is a sequence of code units, here restricted to the code units
    below 256, one [ascii] each.  Symbols, BigInts, and arrays or other
    objects as elements of an array are outside the model. *)

Inductive value : Type :=
  | VUndefined
  | VNull
  | VBool (b : bool)
  | VNum (x : number)
  | VStr (s : string)
  | VObj (r : positive).

(** An array is a sequence of slots; [None] is a hole of a sparse array. *)
Definition slot : Type := option value.

(** What a function can be called with: an array, or any other value. *)
Inductive argument : Type :=
  | Arr (elems : list slot)
  | NonArr (v : value).

(** [Array.isArray]. *)
Definition Array_isArray (a : argument) : bool :=
  match a with Arr _ => true | NonArr _ => false end.

(** The sequence [for (const item of arr)] runs over: the array iterator
    reads the indices [0 .. length - 1], and a hole reads as [undefined]. *)
Definition items (elems : list slot) : list value :=
  map (fun s => match s with Some v => v | None => VUndefined end) elems.

(** ** Decimal digits *)

Module Decimal.

Definition digit_char (d : N) : ascii := ascii_of_N (48 + d).

Definition digit_val (c : ascii) : option N :=
  let n := N_of_ascii c in
  if ((48 <=? n) && (n <=? 57))%N then Some (n - 48)%N else None.

Fixpoint digits_go (fuel : nat) (n : N) (acc : string) : string :=
  match fuel with
  | O => acc
  | S fuel' =>
      let acc' := String (digit_char (n mod 10)) acc in
      if (n / 10 =? 0)%N then acc' else digits_go fuel' (n / 10)%N acc'
  end.

(** The decimal representation of [n], without leading zeros. *)
Definition digits (n : N) : string :=
  digits_go (S (N.to_nat (N.log2 n))) n "".

Fixpoint zeros (n : nat) : string :=
  match n with O => "" | S n' => String "0" (zeros n') end.

End Decimal.

(** ** [Number(v)]: conversion of a value to a number *)

Module ToNumber.

(** StrWhiteSpaceChar, among the code units below 256: TAB, LF, VT, FF,
    CR, SP and NBSP. *)
Definition is_whitespace (c : ascii) : bool :=
  match N_of_ascii c with
  | 9 | 10 | 11 | 12 | 13 | 32 | 160 => true
  | _ => false
  end%N.

Fixpoint trim_start (cs : list ascii) : list ascii :=
  match cs with
  | c :: cs' => if is_whitespace c then trim_start cs' else cs
  | [] => []
  end.

Definition trim (cs : list ascii) : list ascii :=
  rev (trim_start (rev (trim_start cs))).

(** The longest prefix of decimal digits: its value, its length and the
    rest of the input. *)
Fixpoint take_digits (cs : list ascii) (acc : N) (len : nat)
  : N * nat * list ascii :=
  match cs with
  | c :: cs' =>
      match Decimal.digit_val c with
      | Some d => take_digits cs' (10 * acc + d)%N (S len)
      | None => (acc, len, cs)
      end
  | [] => (acc, len, [])
  end.

(** ExponentPart, optional: [e] or [E], an optional sign, digits. *)
Definition parse_exponent (cs : list ascii) : option Z :=
  match cs with
  | [] => Some 0%Z
  | c :: cs' =>
      if (Ascii.eqb c "e" || Ascii.eqb c "E")%bool then
        let '(neg, ds) :=
          match cs' with
          | "-"%char :: r => (true, r)
          | "+"%char :: r => (false, r)
          | _ => (false, cs')
          end in
        match take_digits ds 0 0 with
        | (_, O, _) => None
        | (e, S _, []) => Some (if neg then - Z.of_N e else Z.of_N e)%Z
        | (_, S _, _ :: _) => None
        end
      else None
  end.

(** StrUnsignedDecimalLiteral, with the sign that was read before it. *)
Definition parse_unsigned_decimal (neg : bool) (cs : list ascii) : number :=
  if decide (cs = list_ascii_of_string "Infinity") then S754_infinity neg
  else
    let '(ip, n_ip, r1) := take_digits cs 0 0 in
    let '(fp, n_fp, r2) :=
      match r1 with
      | "."%char :: r => take_digits r ip 0
      | _ => (ip, O, r1)
      end in
    match (n_ip + n_fp)%nat with
    | O => NaN
    | S _ =>
        match parse_exponent r2 with
        | Some e => of_decimal neg fp (e - Z.of_nat n_fp)
        | None => NaN
        end
    end.

Definition radix_digit_val (radix : N) (c : ascii) : option N :=
  let n := N_of_ascii c in
  let d :=
    if ((48 <=? n) && (n <=? 57))%N then Some (n - 48)%N
    else if ((97 <=? n) && (n <=? 102))%N then Some (n - 87)%N
    else if ((65 <=? n) && (n <=? 70))%N then Some (n - 55)%N
    else None in
  match d with
  | Some d => if (d <? radix)%N then Some d else None
  | None => None
  end.

Fixpoint radix_digits (radix : N) (cs : list ascii) (acc : N) : option N :=
  match cs with
  | [] => Some acc
  | c :: cs' =>
      match radix_digit_val radix c with
      | Some d => radix_digits radix cs' (radix * acc + d)%N
      | None => None
      end
  end.

(** NonDecimalIntegerLiteral: [0b], [0o] or [0x] and at least one digit. *)
Definition parse_non_decimal (cs : list ascii) : option number :=
  match cs with
  | "0"%char :: p :: (_ :: _) as ds =>
      let radix :=
        if (Ascii.eqb p "x" || Ascii.eqb p "X")%bool then Some 16%N
        else if (Ascii.eqb p "o" || Ascii.eqb p "O")%bool then Some 8%N
        else if (Ascii.eqb p "b" || Ascii.eqb p "B")%bool then Some 2%N
        else None in
      match radix with
      | Some r =>
          match radix_digits r ds 0 with
          | Some n => Some (of_Z (Z.of_N n))
          | None => Some NaN
          end
      | None => None
      end
  | _ => None
  end.

(** StringToNumber. *)
Definition StringToNumber (s : string) : number :=
  match trim (list_ascii_of_string s) with
  | [] => pos_zero
  | "-"%char :: cs => parse_unsigned_decimal true cs
  | "+"%char :: cs => parse_unsigned_decimal false cs
  | cs =>
      match parse_non_decimal cs with
      | Some n => n
      | None => parse_unsigned_decimal false cs
      end
  end.

(** [Number(v)].  For a plain object, ToPrimitive falls through
    [valueOf] to [toString], whose result ["[object Object]"] is not a
    numeric literal. *)
Definition Number (v : value) : number :=
  match v with
  | VUndefined => NaN
  | VNull => pos_zero
  | VBool true => of_Z 1
  | VBool false => pos_zero
  | VNum x => x
  | VStr s => StringToNumber s
  | VObj _ => NaN
  end.

End ToNumber.

Import ToNumber.

(** ** [String(v)]: conversion of a value to a string *)

Module ToString.

(** A positive finite number as the fraction [num / den]. *)
Definition fraction (m : positive) (e : Z) : N * N :=
  if (0 <=? e)%Z then (Npos m * 2 ^ Z.to_N e, 1)%N
  else (Npos m, 2 ^ Z.to_N (- e))%N.

Definition pow10 (z : Z) : N := (10 ^ Z.to_N z)%N.

(** [num / den] scaled by [10 ^ (- p)], as a fraction again. *)
Definition scaled (num den : N) (p : Z) : N * N :=
  if (0 <=? p)%Z then (num, den * pow10 p)%N
  else (num * pow10 (- p), den)%N.

(** The [n] with [10 ^ (n - 1) <= num / den < 10 ^ n]. *)
Fixpoint magnitude_below (fuel : nat) (num den : N) (n : Z) : Z :=
  match fuel with
  | O => n
  | S fuel' =>
      if (num * pow10 (1 - n) <? den)%N
      then magnitude_below fuel' num den (n - 1)
      else n
  end.

Definition magnitude (num den : N) : Z :=
  if (den <=? num)%N
  then Z.of_nat (String.length (Decimal.digits (num / den)))
  else magnitude_below (S (N.to_nat (N.log2 den))) num den 0.

(** The digit strings of [k] digits next to [x = num / den], below and
    above, each with its magnitude. *)
Definition candidates (num den : N) (n : Z) (k : Z) : (N * Z) * (N * Z) :=
  let '(a, b) := scaled num den (n - k) in
  let lo := (a / b)%N in
  let hi := (lo + 1)%N in
  ((lo, n), if (hi =? pow10 k)%N then (pow10 (k - 1), (n + 1)%Z) else (hi, n)).

(** Is the lower candidate at least as close to [x] as the upper one,
    the even one winning a tie? *)
Definition lower_is_closer (num den : N) (n : Z) (k : Z) : bool :=
  let '(a, b) := scaled num den (n - k) in
  let r := (a mod b)%N in
  match (2 * r ?= b)%N with
  | Lt => true
  | Gt => false
  | Eq => N.even (a / b)
  end.

Definition number_eqb (x y : number) : bool :=
  match x, y with
  | S754_zero a, S754_zero b => Bool.eqb a b
  | S754_infinity a, S754_infinity b => Bool.eqb a b
  | S754_nan, S754_nan => true
  | S754_finite a m e, S754_finite b m' e' =>
      Bool.eqb a b && (m =? m')%positive && (e =? e')%Z
  | _, _ => false
  end.

(** The least [k], from [k] on, with a digit string of [k] digits that
    denotes [x]: the digit string and its magnitude. *)
Fixpoint shortest_from (fuel : nat) (x : number) (num den : N) (n : Z) (k : Z)
  : N * Z * Z :=
  let '((lo, n_lo), (hi, n_hi)) := candidates num den n k in
  let ok_lo := number_eqb (of_decimal false lo (n_lo - k)) x in
  let ok_hi := number_eqb (of_decimal false hi (n_hi - k)) x in
  match fuel with
  | O => if lower_is_closer num den n k then (lo, n_lo, k) else (hi, n_hi, k)
  | S fuel' =>
      match ok_lo, ok_hi with
      | true, true =>
          if lower_is_closer num den n k then (lo, n_lo, k) else (hi, n_hi, k)
      | true, false => (lo, n_lo, k)
      | false, true => (hi, n_hi, k)
      | false, false => shortest_from fuel' x num den n (k + 1)
      end
  end.

(** Number::toString of a positive finite number, radix 10. *)
Definition positive_to_string (m : positive) (e : Z) : string :=
  let '(num, den) := fraction m e in
  let '(s, n, k) :=
    shortest_from 16 (S754_finite false m e) num den (magnitude num den) 1 in
  let ds := Decimal.digits s in
  if ((k <=? n) && (n <=? 21))%Z then
    ds ++ Decimal.zeros (Z.to_nat (n - k))
  else if ((0 <? n) && (n <=? 21))%Z then
    substring 0 (Z.to_nat n) ds ++ "." ++
    substring (Z.to_nat n) (Z.to_nat (k - n)) ds
  else if ((-6 <? n) && (n <=? 0))%Z then
    "0." ++ Decimal.zeros (Z.to_nat (- n)) ++ ds
  else
    let ex := ((if (0 <=? n - 1)%Z then "+" else "-") ++
               Decimal.digits (Z.to_N (Z.abs (n - 1)))) in
    if (k =? 1)%Z then ds ++ "e" ++ ex
    else substring 0 1 ds ++ "." ++ substring 1 (Z.to_nat (k - 1)) ds ++
         "e" ++ ex.

(** Number::toString, radix 10. *)
Definition Number_toString (x : number) : string :=
  match x with
  | S754_nan => "NaN"
  | S754_zero _ => "0"
  | S754_infinity s => if s then "-Infinity" else "Infinity"
  | S754_finite s m e =>
      (if s then "-" else "") ++ positive_to_string m e
  end.

(** [String(v)].  For a plain object this is [Object.prototype.toString],
    whatever the reference. *)
Definition String_ (v : value) : string :=
  match v with
  | VUndefined => "undefined"
  | VNull => "null"
  | VBool true => "true"
  | VBool false => "false"
  | VNum x => Number_toString x
  | VStr s => s
  | VObj _ => "[object Object]"
  end.

End ToString.

Import ToString.

(** ** [JSON.stringify(v)] *)

Module JSON.

Definition quote : ascii := ascii_of_N 34.
Definition backslash : ascii := ascii_of_N 92.

Definition hex_digit (d : N) : ascii :=
  if (d <? 10)%N then ascii_of_N (48 + d) else ascii_of_N (87 + d).

(** A code unit inside a JSON string: the two-character escapes, the
    [\u00XX] escape for the other control characters, itself otherwise. *)
Definition quote_code_unit (c : ascii) : string :=
  let n := N_of_ascii c in
  let esc (e : ascii) := String backslash (String e "") in
  match n with
  | 8 => esc "b"%char
  | 9 => esc "t"%char
  | 10 => esc "n"%char
  | 12 => esc "f"%char
  | 13 => esc "r"%char
  | 34 => esc quote
  | 92 => esc backslash
  | _ =>
      if (n <? 32)%N
      then String backslash
             ("u00" ++ String (hex_digit (n / 16)) (String (hex_digit (n mod 16)) ""))
      else String c ""
  end%N.

Fixpoint quote_code_units (s : string) : string :=
  match s with
  | EmptyString => ""
  | String c s' => quote_code_unit c ++ quote_code_units s'
  end.

(** QuoteJSONString. *)
Definition QuoteJSONString (s : string) : string :=
  String quote (quote_code_units s ++ String quote "").

(** [JSON.stringify(v)]; [None] is the result [undefined]. *)
Definition stringify (v : value) : option string :=
  match v with
  | VUndefined => None
  | VNull => Some "null"
  | VBool true => Some "true"
  | VBool false => Some "false"
  | VNum x =>
      match x with
      | S754_nan | S754_infinity _ => Some "null"
      | _ => Some (Number_toString x)
      end
  | VStr s => Some (QuoteJSONString s)
  | VObj _ => Some "{}"
  end.

(** A result of [JSON.stringify] substituted in a template literal. *)
Definition in_template (r : option string) : string :=
  match r with Some s => s | None => "undefined" end.

End JSON.

(** ** Completions: a call returns a value or throws *)

Inductive exception : Type :=
  | TypeError (message : string).

Inductive completion (A : Type) : Type :=
  | Return (a : A)
  | Throw (e : exception).

Arguments Return {A} a.
Arguments Throw {A} e.

(** The elements of an array argument; used once [Array.isArray] holds. *)
Definition elements (arr : argument) : list slot :=
  match arr with Arr elems => elems | NonArr _ => [] end.

(** Indices and counts are integers far below [2 ^ 53], where the
    arithmetic of numbers is exact; they are modelled by [nat].
    [index_to_string i] is an index substituted in a template literal. *)
Definition index_to_string (i : nat) : string := Decimal.digits (N.of_nat i).

(** [Array.prototype.reduce] with an initial value: the callback is called
    at each index the array has, from the index [i] of the first slot on,
    and a hole is skipped. *)
Fixpoint reduce {A : Type} (f : A -> value -> nat -> completion A)
    (elems : list slot) (i : nat) (acc : A) : completion A :=
  match elems with
  | [] => Return acc
  | None :: rest => reduce f rest (S i) acc
  | Some v :: rest =>
      match f acc v i with
      | Return acc' => reduce f rest (S i) acc'
      | Throw e => Throw e
      end
  end.

(** ** [sum] *)

Definition sum_step (acc : number) (v : value) (i : nat) : completion number :=
  let n := Number v in
  if isNaN n then
    Throw (TypeError ("sum: element at index " ++ index_to_string i ++
                      " is not numeric: " ++ JSON.in_template (JSON.stringify v)))
  else Return (add acc n).

Definition sum (arr : argument) : completion number :=
  if negb (Array_isArray arr) then Throw (TypeError "sum expects an array")
  else reduce sum_step (elements arr) 0 pos_zero.

(** ** Keyed collections: [Map] and [Set]

    A [Map] or [Set] compares keys by SameValueZero: a key [-0] is first
    replaced by [+0] (CanonicalizeKeyedCollectionKey), and keys are then
    compared by SameValue, under which [NaN] is the same value as [NaN],
    primitives are the same by value and objects by reference.  With one
    [NaN] and one representation per number, SameValue is equality on
    [value].  Neither function reads the order of a collection, so [gmap]
    and [gset] over the canonical keys model them. *)

Global Instance number_eq_dec : EqDecision number.
Proof. solve_decision. Defined.

Global Instance value_eq_dec : EqDecision value.
Proof. solve_decision. Defined.

Definition number_encode (x : number) : bool + bool + unit + bool * positive * Z :=
  match x with
  | S754_zero s => inl (inl (inl s))
  | S754_infinity s => inl (inl (inr s))
  | S754_nan => inl (inr tt)
  | S754_finite s m e => inr (s, m, e)
  end.

Definition number_decode (c : bool + bool + unit + bool * positive * Z) : number :=
  match c with
  | inl (inl (inl s)) => S754_zero s
  | inl (inl (inr s)) => S754_infinity s
  | inl (inr _) => S754_nan
  | inr (s, m, e) => S754_finite s m e
  end.

Global Instance number_countable : Countable number.
Proof.
  refine (inj_countable' number_encode number_decode _).
  intros []; reflexivity.
Defined.

Definition value_encode (v : value) : unit + unit + bool + number + string + positive :=
  match v with
  | VUndefined => inl (inl (inl (inl (inl tt))))
  | VNull => inl (inl (inl (inl (inr tt))))
  | VBool b => inl (inl (inl (inr b)))
  | VNum x => inl (inl (inr x))
  | VStr s => inl (inr s)
  | VObj r => inr r
  end.

Definition value_decode (c : unit + unit + bool + number + string + positive) : value :=
  match c with
  | inl (inl (inl (inl (inl _)))) => VUndefined
  | inl (inl (inl (inl (inr _)))) => VNull
  | inl (inl (inl (inr b))) => VBool b
  | inl (inl (inr x)) => VNum x
  | inl (inr s) => VStr s
  | inr r => VObj r
  end.

Global Instance value_countable : Countable value.
Proof.
  refine (inj_countable' value_encode value_decode _).
  intros []; reflexivity.
Defined.

Definition canonical_key (v : value) : value :=
  match v with
  | VNum (S754_zero true) => VNum (S754_zero false)
  | _ => v
  end.

Module JSMap.
Abbreviation t := (gmap value nat).
Definition empty : t := ∅.
Definition get (m : t) (key : value) : option nat := m !! canonical_key key.
Definition set (m : t) (key : value) (v : nat) : t := <[canonical_key key := v]> m.
End JSMap.

Module JSSet.
Abbreviation t := (gset value).
Definition empty : t := ∅.
Definition has (s : t) (v : value) : bool := bool_decide (canonical_key v ∈ s).
Definition add (s : t) (v : value) : t := {[canonical_key v]} ∪ s.
Definition delete (s : t) (v : value) : t := s ∖ {[canonical_key v]}.
End JSSet.

(** [o || 0], for [o] a count or [undefined]. *)
Definition or_zero (o : option nat) : nat :=
  match o with Some n => n | None => 0 end.

(** ** [findDuplicates] *)

(** The body of the first loop, on the state [(counts, duplicates)]. *)
Definition tally (st : JSMap.t * JSSet.t) (item : value) : JSMap.t * JSSet.t :=
  let '(counts, duplicates) := st in
  let prev := or_zero (JSMap.get counts item) in
  let counts := JSMap.set counts item (prev + 1) in
  let duplicates :=
    if (prev + 1 =? 2)%nat then JSSet.add duplicates item else duplicates in
  (counts, duplicates).

(** The body of the second loop, on the state [(duplicates, result)]. *)
Definition emit (st : JSSet.t * list value) (item : value) : JSSet.t * list value :=
  let '(duplicates, result) := st in
  if JSSet.has duplicates item
  then (JSSet.delete duplicates item, (result ++ [item])%list)
  else (duplicates, result).

Definition findDuplicates (arr : argument) : completion (list value) :=
  if negb (Array_isArray arr)
  then Throw (TypeError "findDuplicates expects an array")
  else
    let '(counts, duplicates) :=
      fold_left tally (items (elements arr)) (JSMap.empty, JSSet.empty) in
    let '(_, result) :=
      fold_left emit (items (elements arr)) (duplicates, []) in
    Return result.

(** ** [count] *)

(** An object that maps string keys to counts.  Its prototype is [null]
    or [Object.prototype]; a key is visible on it when it is an own
    property or a property of the prototype. *)
Inductive prototype : Type :=
  | Object_prototype.

Record object : Type := {
  obj_prototype : option prototype;
  obj_properties : gmap string nat
}.

(** [Object.create(proto)]. *)
Definition Object_create (proto : option prototype) : object :=
  {| obj_prototype := proto; obj_properties := ∅ |}.

Definition prototype_keys (p : prototype) : list string :=
  match p with
  | Object_prototype =>
      ["constructor"; "hasOwnProperty"; "isPrototypeOf";
       "propertyIsEnumerable"; "toLocaleString"; "toString"; "valueOf";
       "__proto__"; "__defineGetter__"; "__defineSetter__";
       "__lookupGetter__"; "__lookupSetter__"]
  end.

(** [key in o]. *)
Definition has_property (o : object) (key : string) : bool :=
  bool_decide (is_Some (obj_properties o !! key)) ||
  match obj_prototype o with
  | Some p => bool_decide (key ∈ prototype_keys p)
  | None => false
  end.

(** [o[key]] for an object whose prototype is [null]: the own property,
    or [undefined]. *)
Definition own_get (o : object) (key : string) : option nat :=
  obj_properties o !! key.

(** [o[key] = n]. *)
Definition own_set (o : object) (key : string) (n : nat) : object :=
  {| obj_prototype := obj_prototype o;
     obj_properties := <[key := n]> (obj_properties o) |}.

(** The body of the loop. *)
Definition count_step (map : object) (item : value) : object :=
  let key := String_ item in
  own_set map key (or_zero (own_get map key) + 1).

Definition count (arr : argument) : completion object :=
  if negb (Array_isArray arr) then Throw (TypeError "count expects an array")
  else Return (fold_left count_step (items (elements arr)) (Object_create None)).

(** ** The error kinds of the specification

    Both kinds are a [TypeError]; they differ by their message. *)

Definition InvalidArgument (fn : string) : exception :=
  TypeError (fn ++ " expects an array").

Definition InvalidElement (i : nat) (v : value) : exception :=
  TypeError ("sum: element at index " ++ index_to_string i ++
             " is not numeric: " ++ JSON.in_template (JSON.stringify v)).

(** ** Notions the properties are stated with *)

(** The values an array holds, in index order (its holes left out). *)
Definition present (elems : list slot) : list value := omap id elems.

(** [v] can be coerced to a number. *)
Definition coercible (v : value) : Prop := isNaN (Number v) = false.

(** [x] is [+Infinity] or [-Infinity]. *)
Definition is_infinite (x : number) : bool :=
  match x with S754_infinity _ => true | _ => false end.

(** Two values are the same key of a [Map] or [Set]. *)
Definition same_value_zero (v w : value) : Prop :=
  canonical_key v = canonical_key w.

Global Instance same_value_zero_dec (v w : value) : Decision (same_value_zero v w).
Proof. unfold same_value_zero. apply _. Defined.

(** How often [v] occurs in [l], as a key. *)
Definition occurrences (v : value) (l : list value) : nat :=
  length (filter (fun w => same_value_zero w v) l).

(** [v] is at index [i] of [l], and no earlier index holds the same value. *)
Definition first_occurrence (l : list value) (i : nat) (v : value) : Prop :=
  l !! i = Some v /\
  forall j w, j < i -> l !! j = Some w -> ~ same_value_zero w v.

(** The indices at which [v] occurs in [l], in increasing order, from the
    index [i] of the first item on. *)
Fixpoint occurrence_indices (v : value) (l : list value) (i : nat) : list nat :=
  match l with
  | [] => []
  | w :: l' =>
      if decide (same_value_zero w v)
      then i :: occurrence_indices v l' (S i)
      else occurrence_indices v l' (S i)
  end.

(** The index of the second occurrence of [v] in [l]. *)
Definition second_occurrence (v : value) (l : list value) : option nat :=
  occurrence_indices v l 0 !! 1.

(** How many items of [l] have the string key [k]. *)
Definition key_occurrences (k : string) (l : list value) : nat :=
  length (filter (fun w => String_ w = k) l).

(** The sum of the counts of a mapping. *)
Definition total (o : object) : nat :=
  map_fold (fun (_ : string) (n acc : nat) => n + acc) 0 (obj_properties o).

(** What the second loop of [findDuplicates] appends to [result], as a
    function of the items left and of the pending set. *)
Fixpoint emitted (l : list value) (duplicates : JSSet.t) : list value :=
  match l with
  | [] => []
  | item :: l' =>
      if JSSet.has duplicates item
      then item :: emitted l' (JSSet.delete duplicates item)
      else emitted l' duplicates
  end.

(** * Properties *)

(** ** The conversions on examples *)

Example Number_of_primitives :
  Number VUndefined = NaN /\ Number VNull = pos_zero /\
  Number (VBool true) = of_Z 1 /\ Number (VBool false) = pos_zero /\
  Number (VObj 1) = NaN.
Proof. repeat split. Qed.

Example Number_of_strings :
  Number (VStr "") = pos_zero /\
  Number (VStr "   ") = pos_zero /\
  Number (VStr " 42 ") = of_Z 42 /\
  Number (VStr "-0") = neg_zero /\
  Number (VStr "2.5") = S754_finite false 5629499534213120 (-51) /\
  Number (VStr "0.1") = S754_finite false 7205759403792794 (-56) /\
  Number (VStr ".5e1") = of_Z 5 /\
  Number (VStr "1e3") = of_Z 1000 /\
  Number (VStr "0x1F") = of_Z 31 /\
  Number (VStr "0b101") = of_Z 5 /\
  Number (VStr "-Infinity") = S754_infinity true /\
  Number (VStr "1e400") = S754_infinity false /\
  Number (VStr "9007199254740993") = of_Z 9007199254740992 /\
  Number (VStr "x") = NaN /\
  Number (VStr "12px") = NaN /\
  Number (VStr "1 2") = NaN /\
  Number (VStr "-0x1F") = NaN /\
  Number (VStr ".") = NaN /\
  Number (VStr "1e") = NaN.
Proof. vm_compute. repeat split. Qed.

Example String_of_values :
  String_ VUndefined = "undefined" /\ String_ VNull = "null" /\
  String_ (VBool true) = "true" /\ String_ (VObj 1) = "[object Object]" /\
  String_ (VNum (of_Z 1)) = "1" /\
  String_ (VNum neg_zero) = "0" /\
  String_ (VNum NaN) = "NaN" /\
  String_ (VNum (S754_infinity true)) = "-Infinity" /\
  String_ (VNum (Number (VStr "2.5"))) = "2.5" /\
  String_ (VNum (Number (VStr "0.1"))) = "0.1" /\
  String_ (VNum (Number (VStr "-1.5e300"))) = "-1.5e+300" /\
  String_ (VNum (Number (VStr "1e21"))) = "1e+21" /\
  String_ (VNum (Number (VStr "123456789012345678901"))) = "123456789012345680000" /\
  String_ (VNum (Number (VStr "0.000001"))) = "0.000001" /\
  String_ (VNum (Number (VStr "0.0000001"))) = "1e-7" /\
  String_ (VNum (Number (VStr "5e-324"))) = "5e-324" /\
  String_ (VNum (add (Number (VStr "0.1")) (Number (VStr "0.2")))) =
    "0.30000000000000004".
Proof. vm_compute. repeat split. Qed.

Example JSON_stringify_of_values :
  JSON.stringify VUndefined = None /\
  JSON.stringify VNull = Some "null" /\
  JSON.stringify (VNum NaN) = Some "null" /\
  JSON.stringify (VNum (of_Z 3)) = Some "3" /\
  JSON.stringify (VObj 1) = Some "{}" /\
  JSON.stringify (VStr "x") = Some (String JSON.quote ("x" ++ String JSON.quote "")) /\
  JSON.stringify (VStr (String (ascii_of_N 10) "")) =
    Some (String JSON.quote (String JSON.backslash ("n" ++ String JSON.quote ""))) /\
  JSON.stringify (VStr (String (ascii_of_N 31) "")) =
    Some (String JSON.quote (String JSON.backslash ("u001f" ++ String JSON.quote ""))).
Proof. vm_compute. repeat split. Qed.

(** ** [sum] *)

Section Sum.

Lemma reduce_sum_coercible (elems : list slot) (i : nat) (acc : number) :
  Forall coercible (present elems) ->
  reduce sum_step elems i acc =
    Return (fold_left add (map Number (present elems)) acc).
Proof.
  revert i acc.
  induction elems as [|[v|] elems IH]; intros i acc Hall; simpl.
  - reflexivity.
  - apply Forall_cons in Hall as [Hv Hall].
    unfold sum_step. rewrite Hv. apply IH. exact Hall.
  - apply IH. exact Hall.
Qed.

Lemma reduce_sum_invalid (pre post : list slot) (v : value) (i : nat) (acc : number) :
  Forall coercible (present pre) ->
  isNaN (Number v) = true ->
  reduce sum_step (pre ++ Some v :: post) i acc =
    Throw (InvalidElement (i + length pre) v).
Proof.
  revert i acc.
  induction pre as [|[w|] pre IH]; intros i acc Hall Hv; simpl.
  - unfold sum_step. rewrite Hv, Nat.add_0_r. reflexivity.
  - apply Forall_cons in Hall as [Hw Hall].
    unfold sum_step at 1. rewrite Hw, IH by assumption.
    f_equal. f_equal. lia.
  - rewrite IH by assumption. f_equal. f_equal. lia.
Qed.

(** Every exception of the reduction is an invalid element. *)
Lemma reduce_sum_throws (elems : list slot) (i : nat) (acc : number) (e : exception) :
  reduce sum_step elems i acc = Throw e ->
  exists j v, e = InvalidElement j v.
Proof.
  revert i acc.
  induction elems as [|[v|] elems IH]; intros i acc; simpl.
  - discriminate.
  - unfold sum_step at 1. destruct (isNaN (Number v)).
    + intros [= <-]. exists i, v. reflexivity.
    + apply IH.
  - apply IH.
Qed.

(** The first element that is not coercible splits the array. *)
Lemma first_invalid_split (elems : list slot) :
  Exists (fun v => isNaN (Number v) = true) (present elems) ->
  exists pre v post,
    elems = (pre ++ Some v :: post)%list /\
    Forall coercible (present pre) /\
    isNaN (Number v) = true.
Proof.
  induction elems as [|[w|] elems IH]; simpl; intros Hex.
  - inversion Hex.
  - destruct (isNaN (Number w)) eqn:Hw.
    + exists [], w, elems. split; [reflexivity|]. split; [constructor|exact Hw].
    + apply Exists_cons in Hex as [Habs|Hex]; [congruence|].
      destruct (IH Hex) as (pre & u & post & -> & Hpre & Hu).
      exists (Some w :: pre), u, post.
      split; [reflexivity|]. split; [|exact Hu].
      simpl. constructor; assumption.
  - destruct (IH Hex) as (pre & u & post & -> & Hpre & Hu).
    exists (None :: pre), u, post.
    split; [reflexivity|]. split; [exact Hpre|exact Hu].
Qed.

Lemma reduce_app {A : Type} (f : A -> value -> nat -> completion A)
    (l1 l2 : list slot) (i : nat) (acc : A) :
  reduce f (l1 ++ l2) i acc =
    match reduce f l1 i acc with
    | Return acc' => reduce f l2 (i + length l1) acc'
    | Throw e => Throw e
    end.
Proof.
  revert i acc.
  induction l1 as [|[v|] l1 IH]; intros i acc; simpl.
  - rewrite Nat.add_0_r. reflexivity.
  - destruct (f acc v i) as [acc'|e]; [|reflexivity].
    rewrite IH. replace (S i + length l1) with (i + S (length l1)) by lia.
    reflexivity.
  - rewrite IH. replace (S i + length l1) with (i + S (length l1)) by lia.
    reflexivity.
Qed.

(** [sum] on an array with one more element at the end. *)
Lemma sum_snoc (elems : list slot) (acc : number) (v : value) :
  sum (Arr elems) = Return acc ->
  sum (Arr (elems ++ [Some v])) = sum_step acc v (length elems).
Proof.
  unfold sum. simpl. intros Hsum. rewrite reduce_app, Hsum. simpl.
  destruct (sum_step acc v (length elems)); reflexivity.
Qed.

(** Adding [+0] leaves every number but [-0] as it is. *)
Lemma add_pos_zero (x : number) : x <> neg_zero -> add x pos_zero = x.
Proof. destruct x as [[]| | |]; intros Hx; try reflexivity. contradiction. Qed.

End Sum.

(** ** [findDuplicates] *)

Section FindDuplicates.

Lemma elem_of_add (d : JSSet.t) (x k : value) :
  k ∈ JSSet.add d x <-> k = canonical_key x \/ k ∈ d.
Proof. unfold JSSet.add. rewrite elem_of_union, elem_of_singleton. reflexivity. Qed.

Lemma elem_of_delete (d : JSSet.t) (x k : value) :
  k ∈ JSSet.delete d x <-> k ∈ d /\ k <> canonical_key x.
Proof.
  unfold JSSet.delete. rewrite elem_of_difference, elem_of_singleton. reflexivity.
Qed.

Lemma occurrences_snoc (v x : value) (l : list value) :
  occurrences v (l ++ [x]) =
    occurrences v l + (if decide (same_value_zero x v) then 1 else 0).
Proof.
  unfold occurrences. rewrite filter_app, length_app. f_equal.
  rewrite filter_cons, filter_nil.
  destruct (decide (same_value_zero x v)); reflexivity.
Qed.

Lemma occurrences_cons (v x : value) (l : list value) :
  occurrences v (x :: l) =
    (if decide (same_value_zero x v) then 1 else 0) + occurrences v l.
Proof.
  unfold occurrences. rewrite filter_cons.
  destruct (decide (same_value_zero x v)); reflexivity.
Qed.

Lemma occurrences_same (x v : value) (l : list value) :
  same_value_zero x v -> occurrences x l = occurrences v l.
Proof.
  unfold same_value_zero. intros Heq.
  induction l as [|w l IH]; [reflexivity|].
  rewrite !occurrences_cons, IH. unfold same_value_zero.
  destruct (decide (canonical_key w = canonical_key x)),
           (decide (canonical_key w = canonical_key v)); congruence.
Qed.

(** After the first loop, [counts] holds the number of occurrences of
    each key and [duplicates] the keys that occur twice or more. *)
Lemma tally_invariant (l : list value) (counts : JSMap.t) (duplicates : JSSet.t) :
  fold_left tally l (JSMap.empty, JSSet.empty) = (counts, duplicates) ->
  (forall v, or_zero (JSMap.get counts v) = occurrences v l) /\
  (forall v, canonical_key v ∈ duplicates <-> 2 <= occurrences v l).
Proof.
  revert counts duplicates.
  induction l as [|x l IH] using rev_ind; intros counts duplicates.
  - simpl. intros [= <- <-]. split; intros v.
    + unfold JSMap.get, JSMap.empty. rewrite lookup_empty. reflexivity.
    + unfold JSSet.empty, occurrences. simpl. rewrite elem_of_empty. lia.
  - rewrite fold_left_app. simpl.
    destruct (fold_left tally l (JSMap.empty, JSSet.empty)) as [c d] eqn:Hfold.
    destruct (IH c d eq_refl) as [Hc Hd].
    unfold tally. intros [= <- <-]. split; intros v.
    + rewrite occurrences_snoc. unfold JSMap.get, JSMap.set.
      unfold same_value_zero.
      destruct (decide (canonical_key x = canonical_key v)) as [Heq|Hne].
      * rewrite Heq, lookup_insert_eq. simpl.
        rewrite <- Hc. reflexivity.
      * rewrite lookup_insert_ne by exact Hne.
        rewrite <- Hc. unfold JSMap.get. lia.
    + rewrite occurrences_snoc. unfold same_value_zero.
      specialize (Hd v). specialize (Hc x). unfold JSMap.get in Hc.
      destruct (decide (canonical_key x = canonical_key v)) as [Heq|Hne].
      * assert (Hxv : occurrences x l = occurrences v l).
        { apply occurrences_same. exact Heq. }
        unfold JSMap.get. rewrite Hc, Hxv.
        destruct (Nat.eqb_spec (occurrences v l + 1) 2) as [H2|H2].
        -- rewrite elem_of_add, Heq. split; [lia|intros _; left; reflexivity].
        -- rewrite Hd. lia.
      * unfold JSMap.get.
        destruct (or_zero (c !! canonical_key x) + 1 =? 2)%nat.
        -- rewrite elem_of_add, Hd.
           split; [intros [Habs|H2]; [congruence|lia]|intros H2; right; lia].
        -- rewrite Hd. lia.
Qed.

Lemma fold_emit (l : list value) (duplicates : JSSet.t) (result : list value) :
  snd (fold_left emit l (duplicates, result)) =
    (result ++ emitted l duplicates)%list.
Proof.
  revert duplicates result.
  induction l as [|x l IH]; intros duplicates result; simpl.
  - rewrite app_nil_r. reflexivity.
  - destruct (JSSet.has duplicates x).
    + rewrite IH, <- app_assoc. reflexivity.
    + apply IH.
Qed.

Lemma has_true (d : JSSet.t) (x : value) :
  JSSet.has d x = true <-> canonical_key x ∈ d.
Proof. unfold JSSet.has. apply bool_decide_eq_true. Qed.

Lemma has_false (d : JSSet.t) (x : value) :
  JSSet.has d x = false <-> canonical_key x ∉ d.
Proof. unfold JSSet.has. apply bool_decide_eq_false. Qed.

Lemma emitted_sound (l : list value) (d : JSSet.t) (w : value) :
  w ∈ emitted l d -> w ∈ l /\ canonical_key w ∈ d.
Proof.
  revert d. induction l as [|x l IH]; intros d; simpl.
  - intros H. inversion H.
  - destruct (JSSet.has d x) eqn:Hx.
    + apply has_true in Hx. intros H.
      apply elem_of_cons in H as [->|H].
      * split; [left|exact Hx].
      * apply IH in H as [Hl Hd]. apply elem_of_delete in Hd as [Hd _].
        split; [right; exact Hl|exact Hd].
    + intros H. apply IH in H as [Hl Hd]. split; [right; exact Hl|exact Hd].
Qed.

Lemma emitted_complete (l : list value) (d : JSSet.t) (x : value) :
  x ∈ l -> canonical_key x ∈ d ->
  exists w, w ∈ emitted l d /\ same_value_zero w x.
Proof.
  revert d. induction l as [|y l IH]; intros d Hin Hd; simpl.
  - inversion Hin.
  - destruct (JSSet.has d y) eqn:Hy.
    + destruct (decide (canonical_key y = canonical_key x)) as [Heq|Hne].
      * exists y. split; [left|exact Heq].
      * apply elem_of_cons in Hin as [->|Hin]; [congruence|].
        destruct (IH (JSSet.delete d y) Hin) as (w & Hw & Hwx).
        { apply elem_of_delete. split; [exact Hd|congruence]. }
        exists w. split; [right; exact Hw|exact Hwx].
    + apply has_false in Hy.
      apply elem_of_cons in Hin as [->|Hin]; [contradiction|].
      destruct (IH d Hin Hd) as (w & Hw & Hwx).
      exists w. split; [exact Hw|exact Hwx].
Qed.

Lemma emitted_NoDup (l : list value) (d : JSSet.t) :
  NoDup (map canonical_key (emitted l d)).
Proof.
  revert d. induction l as [|x l IH]; intros d; simpl.
  - constructor.
  - destruct (JSSet.has d x) eqn:Hx; [|apply IH].
    simpl. constructor; [|apply IH].
    intros Hin. apply list_elem_of_In, in_map_iff in Hin as (w & Hk & Hw).
    apply list_elem_of_In, emitted_sound in Hw as [_ Hd].
    apply elem_of_delete in Hd as [_ Hd]. contradiction.
Qed.

Lemma first_occurrence_shift (l : list value) (x v : value) (i : nat) :
  first_occurrence l i v -> ~ same_value_zero x v ->
  first_occurrence (x :: l) (S i) v.
Proof.
  intros [Hi Hfirst] Hx. split; [exact Hi|].
  intros [|j] w Hj; simpl.
  - intros [= <-]. exact Hx.
  - apply Hfirst. lia.
Qed.

Lemma first_occurrences_shift (l : list value) (x : value)
    (idxs : list nat) (vs : list value) :
  Forall2 (first_occurrence l) idxs vs ->
  Forall (fun v => ~ same_value_zero x v) vs ->
  Forall2 (first_occurrence (x :: l)) (map S idxs) vs.
Proof.
  induction 1 as [|i v idxs0 vs Hiv Hrest IHall]; intros Hne; simpl.
  - constructor.
  - apply Forall_cons in Hne as [Hv Hne]. constructor.
    + apply first_occurrence_shift; assumption.
    + apply IHall. exact Hne.
Qed.

Lemma sorted_shift (idxs : list nat) :
  StronglySorted lt idxs -> StronglySorted lt (map S idxs).
Proof.
  induction 1 as [|i idxs Hs IHs Hall]; simpl; constructor.
  - exact IHs.
  - apply Forall_forall. intros j Hj.
    apply list_elem_of_In, in_map_iff in Hj as (k & <- & Hk).
    rewrite Forall_forall in Hall. apply list_elem_of_In, Hall in Hk. lia.
Qed.

(** The values emitted are first occurrences, at increasing indices. *)
Lemma emitted_first_occurrences (l : list value) (d : JSSet.t) :
  exists idxs : list nat,
    Forall2 (first_occurrence l) idxs (emitted l d) /\
    StronglySorted lt idxs.
Proof.
  revert d. induction l as [|x l IH]; intros d; simpl.
  - exists []. split; constructor.
  - destruct (JSSet.has d x) eqn:Hx.
    + destruct (IH (JSSet.delete d x)) as (idxs & Hall & Hsorted).
      exists (0 :: map S idxs). split.
      * constructor.
        -- split; [reflexivity|]. intros j w Hj. lia.
        -- apply first_occurrences_shift; [exact Hall|].
           apply Forall_forall. intros v Hv.
           apply emitted_sound in Hv as [_ Hv].
           apply elem_of_delete in Hv as [_ Hv].
           unfold same_value_zero. congruence.
      * constructor; [apply sorted_shift; exact Hsorted|].
        apply Forall_forall. intros j Hj.
        apply list_elem_of_In, in_map_iff in Hj as (k & <- & _). lia.
    + apply has_false in Hx.
      destruct (IH d) as (idxs & Hall & Hsorted).
      exists (map S idxs). split.
      * apply first_occurrences_shift; [exact Hall|].
        apply Forall_forall. intros v Hv.
        apply emitted_sound in Hv as [_ Hv].
        unfold same_value_zero. intros Heq. apply Hx. rewrite Heq. exact Hv.
      * apply sorted_shift. exact Hsorted.
Qed.

(** [findDuplicates] on an array, in terms of [emitted]. *)
Lemma findDuplicates_emitted (elems : list slot) :
  exists counts duplicates,
    fold_left tally (items elems) (JSMap.empty, JSSet.empty) = (counts, duplicates) /\
    findDuplicates (Arr elems) = Return (emitted (items elems) duplicates).
Proof.
  unfold findDuplicates. simpl.
  destruct (fold_left tally (items elems) (JSMap.empty, JSSet.empty))
    as [counts duplicates] eqn:Htally.
  exists counts, duplicates. split; [reflexivity|].
  pose proof (fold_emit (items elems) duplicates []) as Hemit.
  destruct (fold_left emit (items elems) (duplicates, [])) as [d' result].
  simpl in Hemit. rewrite Hemit. reflexivity.
Qed.

End FindDuplicates.

(** ** [count] *)

Section Count.

Lemma key_occurrences_snoc (k : string) (x : value) (l : list value) :
  key_occurrences k (l ++ [x]) =
    key_occurrences k l + (if decide (String_ x = k) then 1 else 0).
Proof.
  unfold key_occurrences. rewrite filter_app, length_app. f_equal.
  rewrite filter_cons, filter_nil.
  destruct (decide (String_ x = k)); reflexivity.
Qed.

Lemma sum_counts_commute (j1 j2 : string) (z1 z2 y : nat) :
  z1 + (z2 + y) = z2 + (z1 + y).
Proof. lia. Qed.

(** Storing [n] at [key] changes the sum of the counts by [n] minus the
    count that was stored there. *)
Lemma total_own_set (o : object) (key : string) (n : nat) :
  total (own_set o key n) + or_zero (own_get o key) = n + total o.
Proof.
  unfold total, own_set, own_get. simpl.
  destruct (obj_properties o !! key) as [old|] eqn:Hold; simpl.
  - rewrite <- insert_delete_eq.
    rewrite map_fold_insert_L.
    + rewrite (map_fold_delete_L _ _ key old (obj_properties o)).
      * lia.
      * intros. apply sum_counts_commute; assumption.
      * exact Hold.
    + intros. apply sum_counts_commute; assumption.
    + apply lookup_delete_eq.
  - rewrite map_fold_insert_L.
    + lia.
    + intros. apply sum_counts_commute; assumption.
    + exact Hold.
Qed.

(** After the loop over [l]: the prototype is still [null], each key
    holds the number of items with that key, no key holds 0, and the
    counts add up to the number of items. *)
Lemma count_invariant (l : list value) :
  let o := fold_left count_step l (Object_create None) in
  obj_prototype o = None /\
  (forall k, or_zero (own_get o k) = key_occurrences k l) /\
  (forall k, own_get o k <> Some 0) /\
  total o = length l.
Proof.
  induction l as [|x l IH] using rev_ind; simpl.
  - split; [reflexivity|]. split; [|split; [|reflexivity]].
    + intros k. unfold own_get. simpl. rewrite lookup_empty. reflexivity.
    + intros k. unfold own_get. simpl. rewrite lookup_empty. discriminate.
  - rewrite fold_left_app. simpl in *.
    set (o := fold_left count_step l (Object_create None)) in *.
    destruct IH as (Hproto & Hkeys & Hpos & Htotal).
    unfold count_step. split; [|split; [|split]].
    + exact Hproto.
    + intros k. rewrite key_occurrences_snoc. unfold own_get, own_set. simpl.
      destruct (decide (String_ x = k)) as [->|Hne].
      * rewrite lookup_insert_eq. simpl. rewrite <- Hkeys. reflexivity.
      * rewrite lookup_insert_ne by exact Hne.
        rewrite <- Hkeys. unfold own_get. lia.
    + intros k. unfold own_get, own_set. simpl.
      destruct (decide (String_ x = k)) as [->|Hne].
      * rewrite lookup_insert_eq. intros [= H0]. lia.
      * rewrite lookup_insert_ne by exact Hne. apply Hpos.
    + pose proof (total_own_set o (String_ x) (or_zero (own_get o (String_ x)) + 1)).
      rewrite length_app. simpl. lia.
Qed.

Lemma String_canonical_key (v : value) :
  String_ (canonical_key v) = String_ v.
Proof. destruct v as [| |b|[[]| | |]|s|r]; reflexivity. Qed.

Lemma same_value_zero_String (v w : value) :
  same_value_zero v w -> String_ v = String_ w.
Proof.
  unfold same_value_zero. intros Heq.
  rewrite <- (String_canonical_key v), <- (String_canonical_key w), Heq.
  reflexivity.
Qed.

(** Values that are the same key of a [Map] have the same string key. *)
Lemma occurrences_le_key_occurrences (v : value) (l : list value) :
  occurrences v l <= key_occurrences (String_ v) l.
Proof.
  unfold occurrences, key_occurrences.
  induction l as [|w l IH]; [reflexivity|].
  rewrite !filter_cons.
  destruct (decide (same_value_zero w v)) as [Hs|Hs].
  - apply same_value_zero_String in Hs.
    destruct (decide (String_ w = String_ v)); [simpl; lia|contradiction].
  - destruct (decide (String_ w = String_ v)); simpl; lia.
Qed.

End Count.

(** * The claims *)

Section Claims.

Lemma occurrences_pos (v : value) (l : list value) :
  0 < occurrences v l <-> exists w, w ∈ l /\ same_value_zero w v.
Proof.
  induction l as [|x l IH].
  - split; [unfold occurrences; simpl; lia|].
    intros (w & Hw & _). inversion Hw.
  - rewrite occurrences_cons.
    destruct (decide (same_value_zero x v)) as [Hx|Hx].
    + split; [|lia]. intros _. exists x. split; [left|exact Hx].
    + simpl. rewrite IH. split.
      * intros (w & Hw & Hwv). exists w. split; [right; exact Hw|exact Hwv].
      * intros (w & Hw & Hwv). exists w. split; [|exact Hwv].
        apply elem_of_cons in Hw as [->|Hw]; [contradiction|exact Hw].
Qed.

Lemma occurrences_NoDup (v : value) (l : list value) :
  NoDup (map canonical_key l) -> occurrences v l <= 1.
Proof.
  induction l as [|x l IH]; simpl; intros Hnd.
  - unfold occurrences. simpl. lia.
  - apply NoDup_cons in Hnd as [Hx Hnd]. rewrite occurrences_cons.
    destruct (decide (same_value_zero x v)) as [Hxv|Hxv]; [|apply IH, Hnd].
    destruct (occurrences v l) as [|n] eqn:Hocc; [lia|].
    exfalso. apply Hx.
    assert (Hpos : 0 < occurrences v l) by lia.
    apply occurrences_pos in Hpos as (w & Hw & Hwv).
    apply list_elem_of_In, in_map_iff. exists w.
    split; [|apply list_elem_of_In; exact Hw].
    unfold same_value_zero in *. congruence.
Qed.

(** C1. For every array, [findDuplicates] returns a sequence in which a
    value occurs once if it occurs twice or more in the array and does not
    occur otherwise; the entries of the result are first occurrences in the
    array, at strictly increasing indices, so the result is ordered by the
    index of the first occurrence of each duplicate value. *)
Theorem findDuplicates_first_occurrence_order (elems : list slot) :
  exists (result : list value) (idxs : list nat),
    findDuplicates (Arr elems) = Return result /\
    (forall v, occurrences v result =
               if decide (2 <= occurrences v (items elems)) then 1 else 0) /\
    Forall2 (first_occurrence (items elems)) idxs result /\
    StronglySorted lt idxs.
Proof.
  destruct (findDuplicates_emitted elems) as (counts & duplicates & Htally & Hfind).
  destruct (tally_invariant _ _ _ Htally) as [_ Hdup].
  destruct (emitted_first_occurrences (items elems) duplicates)
    as (idxs & Hfirst & Hsorted).
  exists (emitted (items elems) duplicates), idxs.
  split; [exact Hfind|]. split; [|split; assumption].
  intros v.
  pose proof (occurrences_NoDup v _ (emitted_NoDup (items elems) duplicates)) as Hle.
  pose proof (occurrences_pos v (emitted (items elems) duplicates)) as Hpos.
  destruct (decide (2 <= occurrences v (items elems))) as [H2|H2].
  - assert (H0 : 0 < occurrences v (items elems)) by lia.
    apply occurrences_pos in H0 as (x & Hx & Hxv).
    assert (Hxd : canonical_key x ∈ duplicates).
    { rewrite Hxv. apply Hdup. exact H2. }
    destruct (emitted_complete _ _ _ Hx Hxd) as (w & Hw & Hwx).
    assert (0 < occurrences v (emitted (items elems) duplicates)); [|lia].
    apply Hpos. exists w. split; [exact Hw|].
    unfold same_value_zero in *. congruence.
  - destruct (occurrences v (emitted (items elems) duplicates)) as [|n] eqn:Hocc;
      [reflexivity|].
    exfalso. apply H2.
    assert (H0 : 0 < S n) by lia.
    apply Hpos in H0 as (w & Hw & Hwv).
    apply emitted_sound in Hw as [_ Hw].
    apply Hdup. rewrite <- Hwv. exact Hw.
Qed.

(** The example of C1: [findDuplicates([1,2,2,3,1])] is [[1,2]]. *)
Example findDuplicates_1_2_2_3_1 :
  findDuplicates (Arr [Some (VNum (of_Z 1)); Some (VNum (of_Z 2));
                       Some (VNum (of_Z 2)); Some (VNum (of_Z 3));
                       Some (VNum (of_Z 1))]) =
    Return [VNum (of_Z 1); VNum (of_Z 2)].
Proof. vm_compute. reflexivity. Qed.

(** C2. On [[1,2,2,3,1]] the value 2 occurs for the second time at index
    2 and the value 1 at index 4, and [findDuplicates] returns 1 before 2:
    the result is not in the order of the second occurrences. *)
Theorem findDuplicates_second_occurrence_order_fails :
  let l := [VNum (of_Z 1); VNum (of_Z 2); VNum (of_Z 2); VNum (of_Z 3);
            VNum (of_Z 1)] in
  findDuplicates (Arr (map Some l)) = Return [VNum (of_Z 1); VNum (of_Z 2)] /\
  second_occurrence (VNum (of_Z 1)) l = Some 4 /\
  second_occurrence (VNum (of_Z 2)) l = Some 2.
Proof. vm_compute. repeat split. Qed.

(** C3. On an array all of whose elements are coercible, [sum] returns
    the left-to-right fold of the addition of numbers over the coerced
    elements, in index order, from the accumulator [+0]. *)
Theorem sum_is_left_fold (elems : list slot) :
  Forall coercible (present elems) ->
  sum (Arr elems) = Return (fold_left add (map Number (present elems)) pos_zero).
Proof. intros Hall. unfold sum. simpl. apply reduce_sum_coercible. exact Hall. Qed.

(** The examples of C3: [sum([])] is 0, [sum([1,2,3])] is 6 and
    [sum(["1","2.5",3])] is 6.5. *)
Lemma sum_is_left_fold_witness :
  sum (Arr []) = Return pos_zero /\
  sum (Arr [Some (VNum (of_Z 1)); Some (VNum (of_Z 2)); Some (VNum (of_Z 3))]) =
    Return (of_Z 6) /\
  Forall coercible (present [Some (VStr "1"); Some (VStr "2.5"); Some (VNum (of_Z 3))]) /\
  sum (Arr [Some (VStr "1"); Some (VStr "2.5"); Some (VNum (of_Z 3))]) =
    Return (of_decimal false 65 (-1)).
Proof.
  assert (H3 : Forall coercible
                 (present [Some (VStr "1"); Some (VStr "2.5"); Some (VNum (of_Z 3))])).
  { repeat constructor. }
  split; [|split; [|split]].
  - apply (sum_is_left_fold []). constructor.
  - rewrite sum_is_left_fold; [vm_compute; reflexivity|repeat constructor].
  - exact H3.
  - rewrite (sum_is_left_fold _ H3). vm_compute. reflexivity.
Defined.

(** C4. On an array with an element that is not coercible, [sum] throws
    the invalid-element error of the first such element: every element
    before it is coercible, and the message carries its index and its
    JSON serialization.  The completion is the exception alone. *)
Theorem sum_fails_at_first_invalid (elems : list slot) :
  Exists (fun v => isNaN (Number v) = true) (present elems) ->
  exists (pre : list slot) (v : value) (post : list slot),
    elems = (pre ++ Some v :: post)%list /\
    Forall coercible (present pre) /\
    isNaN (Number v) = true /\
    sum (Arr elems) = Throw (InvalidElement (length pre) v).
Proof.
  intros Hex.
  destruct (first_invalid_split elems Hex) as (pre & v & post & -> & Hpre & Hv).
  exists pre, v, post. split; [reflexivity|]. split; [exact Hpre|].
  split; [exact Hv|].
  unfold sum. simpl. apply (reduce_sum_invalid pre post v 0 pos_zero Hpre Hv).
Qed.

Lemma sum_fails_at_first_invalid_witness :
  Exists (fun v => isNaN (Number v) = true)
    (present [Some (VNum (of_Z 1)); Some (VStr "x"); Some (VNum (of_Z 3))]) /\
  exists (pre : list slot) (v : value) (post : list slot),
    [Some (VNum (of_Z 1)); Some (VStr "x"); Some (VNum (of_Z 3))] =
      (pre ++ Some v :: post)%list /\
    Forall coercible (present pre) /\
    isNaN (Number v) = true /\
    sum (Arr [Some (VNum (of_Z 1)); Some (VStr "x"); Some (VNum (of_Z 3))]) =
      Throw (InvalidElement (length pre) v).
Proof.
  assert (Hex : Exists (fun v => isNaN (Number v) = true)
            (present [Some (VNum (of_Z 1)); Some (VStr "x"); Some (VNum (of_Z 3))])).
  { right. left. reflexivity. }
  split; [exact Hex|].
  exact (sum_fails_at_first_invalid _ Hex).
Defined.

(** The example of C4: [sum([1,"x",3])] fails at index 1. *)
Example sum_1_x_3 :
  sum (Arr [Some (VNum (of_Z 1)); Some (VStr "x"); Some (VNum (of_Z 3))]) =
    Throw (InvalidElement 1 (VStr "x")) /\
  InvalidElement 1 (VStr "x") =
    TypeError ("sum: element at index 1 is not numeric: " ++
               JSON.QuoteJSONString "x").
Proof. vm_compute. split; reflexivity. Qed.

(** C5. Each of the three functions throws its invalid-argument error
    exactly when its argument is not an array: it does so on every
    argument that is not an array, whatever the argument holds, and on no
    array. *)
Theorem InvalidArgument_iff_not_array (arr : argument) :
  (Array_isArray arr = false <-> sum arr = Throw (InvalidArgument "sum")) /\
  (Array_isArray arr = false <->
     findDuplicates arr = Throw (InvalidArgument "findDuplicates")) /\
  (Array_isArray arr = false <-> count arr = Throw (InvalidArgument "count")).
Proof.
  destruct arr as [elems|v]; simpl.
  - split; [|split]; (split; [discriminate|]).
    + unfold sum. simpl. intros Hthrow.
      apply reduce_sum_throws in Hthrow as (j & w & Heq).
      discriminate Heq.
    + destruct (findDuplicates_emitted elems) as (c & d & _ & ->). discriminate.
    + unfold count. simpl. discriminate.
  - split; [|split]; split; reflexivity.
Qed.

(** C6. On every array, [count] returns a mapping whose counts add up to
    the length of the array; its prototype is [null], so the keys visible
    on it are its own keys; on the empty array it has no key. *)
Theorem count_total_is_length (elems : list slot) :
  exists o : object,
    count (Arr elems) = Return o /\
    total o = length elems /\
    obj_prototype o = None /\
    (forall key, has_property o key = true <-> is_Some (obj_properties o !! key)) /\
    (elems = [] -> obj_properties o = ∅).
Proof.
  exists (fold_left count_step (items elems) (Object_create None)).
  destruct (count_invariant (items elems)) as (Hproto & _ & _ & Htotal).
  split; [reflexivity|]. split; [|split; [exact Hproto|split]].
  - rewrite Htotal. unfold items. apply length_map.
  - intros key. unfold has_property. rewrite Hproto, orb_false_r.
    apply bool_decide_eq_true.
  - intros ->. reflexivity.
Qed.

(** The example of the specification: [count([1,1,2,"2"])] maps ["1"] to 2
    and ["2"] to 2. *)
Example count_1_1_2_2 :
  count (Arr [Some (VNum (of_Z 1)); Some (VNum (of_Z 1));
              Some (VNum (of_Z 2)); Some (VStr "2")]) =
    Return {| obj_prototype := None;
              obj_properties := {[ "1" := 2; "2" := 2 ]} |}.
Proof. vm_compute. reflexivity. Qed.

(** C7. Every value of [findDuplicates(arr)] has, under its string key, a
    count of 2 or more in [count(arr)]. *)
Theorem duplicates_are_counted_twice (elems : list slot)
    (result : list value) (o : object) (v : value) :
  findDuplicates (Arr elems) = Return result ->
  count (Arr elems) = Return o ->
  v ∈ result ->
  exists n, obj_properties o !! String_ v = Some n /\ 2 <= n.
Proof.
  intros Hfind Hcount Hv.
  destruct (findDuplicates_emitted elems) as (counts & duplicates & Htally & Hfind').
  rewrite Hfind' in Hfind. injection Hfind as <-.
  destruct (tally_invariant _ _ _ Htally) as [_ Hdup].
  apply emitted_sound in Hv as [_ Hv]. apply Hdup in Hv.
  unfold count in Hcount. simpl in Hcount. injection Hcount as <-.
  destruct (count_invariant (items elems)) as (_ & Hkeys & _ & _).
  specialize (Hkeys (String_ v)).
  pose proof (occurrences_le_key_occurrences v (items elems)) as Hle.
  unfold own_get in Hkeys.
  destruct (obj_properties _ !! String_ v) as [n|]; simpl in Hkeys.
  - exists n. split; [reflexivity|lia].
  - lia.
Qed.

Lemma duplicates_are_counted_twice_witness :
  let elems := [Some (VNum (of_Z 1)); Some (VNum (of_Z 2)); Some (VNum (of_Z 2));
                Some (VNum (of_Z 3)); Some (VNum (of_Z 1))] in
  let result := [VNum (of_Z 1); VNum (of_Z 2)] in
  let o := {| obj_prototype := None;
              obj_properties := {[ "1" := 2; "2" := 2; "3" := 1 ]} |} in
  findDuplicates (Arr elems) = Return result /\
  count (Arr elems) = Return o /\
  VNum (of_Z 2) ∈ result /\
  exists n, obj_properties o !! String_ (VNum (of_Z 2)) = Some n /\ 2 <= n.
Proof.
  intros elems result o.
  assert (Hfind : findDuplicates (Arr elems) = Return result)
    by (vm_compute; reflexivity).
  assert (Hcount : count (Arr elems) = Return o) by (vm_compute; reflexivity).
  assert (Hin : VNum (of_Z 2) ∈ result) by (right; left).
  split; [exact Hfind|]. split; [exact Hcount|]. split; [exact Hin|].
  exact (duplicates_are_counted_twice elems result o (VNum (of_Z 2)) Hfind Hcount Hin).
Defined.

(** C8, as stated, fails: [undefined] is not coerced like the empty
    string, and [sum] fails on it. *)
Lemma sum_undefined_fails :
  Number (VStr "") = pos_zero /\
  Number VUndefined = NaN /\
  sum (Arr [Some VUndefined]) =
    Throw (TypeError "sum: element at index 0 is not numeric: undefined").
Proof. vm_compute. repeat split. Qed.

(** C8, amended. In [sum], [true] is coerced to 1 and [false] to 0;
    [null] is coerced to [+0] as the empty string is, so it adds 0 to the
    total (which leaves a total other than [-0] as it is) and does not
    fail; an [undefined] element is not coercible, and [sum] fails with
    the invalid-element error of its index. *)
Theorem sum_coercion_of_booleans_and_null (elems : list slot) (acc : number) :
  sum (Arr elems) = Return acc ->
  sum (Arr (elems ++ [Some (VBool true)])) = Return (add acc (of_Z 1)) /\
  sum (Arr (elems ++ [Some (VBool false)])) = Return (add acc pos_zero) /\
  sum (Arr (elems ++ [Some VNull])) = Return (add acc pos_zero) /\
  sum (Arr (elems ++ [Some (VStr "")])) = Return (add acc pos_zero) /\
  (acc <> neg_zero -> add acc pos_zero = acc) /\
  sum (Arr (elems ++ [Some VUndefined])) =
    Throw (InvalidElement (length elems) VUndefined).
Proof.
  intros Hsum.
  pose proof (fun v => sum_snoc elems acc v Hsum) as Hsnoc.
  rewrite !Hsnoc.
  split; [reflexivity|]. split; [reflexivity|]. split; [reflexivity|].
  split; [reflexivity|]. split; [apply add_pos_zero|reflexivity].
Qed.

Lemma sum_coercion_of_booleans_and_null_witness :
  let elems := [Some (VNum (of_Z 2))] in
  let acc := of_Z 2 in
  sum (Arr elems) = Return acc /\
  sum (Arr (elems ++ [Some (VBool true)])) = Return (of_Z 3) /\
  sum (Arr (elems ++ [Some VNull])) = Return (of_Z 2) /\
  sum (Arr (elems ++ [Some VUndefined])) = Throw (InvalidElement 1 VUndefined).
Proof.
  intros elems acc.
  assert (Hsum : sum (Arr elems) = Return acc) by (vm_compute; reflexivity).
  destruct (sum_coercion_of_booleans_and_null elems acc Hsum)
    as (Htrue & _ & Hnull & _ & _ & Hundef).
  split; [exact Hsum|]. split; [|split].
  - etransitivity; [exact Htrue|vm_compute; reflexivity].
  - etransitivity; [exact Hnull|vm_compute; reflexivity].
  - exact Hundef.
Defined.

(** C10. In [count], a boolean and its spelling as a string have the
    same key: [count([true,"true"])] maps ["true"] to 2 and has no other
    key (likewise for [false]), while [findDuplicates] returns the empty
    sequence on the same array, the two elements being different
    values. *)
Theorem count_boolean_collides_with_its_spelling (b : bool) :
  let spelling := if b then "true" else "false" in
  String_ (VBool b) = String_ (VStr spelling) /\
  ~ same_value_zero (VBool b) (VStr spelling) /\
  count (Arr [Some (VBool b); Some (VStr spelling)]) =
    Return {| obj_prototype := None;
              obj_properties := {[ spelling := 2 ]} |} /\
  findDuplicates (Arr [Some (VBool b); Some (VStr spelling)]) = Return [].
Proof.
  destruct b; simpl; (split; [reflexivity|]); (split; [discriminate|]);
    split; vm_compute; reflexivity.
Qed.

End Claims.

(** ** The other examples of the specification, and sparse arrays *)

Example findDuplicates_examples :
  findDuplicates (Arr []) = Return [] /\
  findDuplicates (Arr [Some (VNum (of_Z 1)); Some (VNum (of_Z 2));
                       Some (VNum (of_Z 3))]) = Return [] /\
  findDuplicates (Arr [Some (VStr "a"); Some (VStr "a"); Some (VStr "a")]) =
    Return [VStr "a"] /\
  findDuplicates (Arr [Some (VObj 1); Some (VObj 2); Some (VObj 1)]) =
    Return [VObj 1] /\
  findDuplicates (Arr [Some (VNum NaN); Some (VNum NaN)]) = Return [VNum NaN] /\
  findDuplicates (Arr [Some (VNum neg_zero); Some (VNum pos_zero)]) =
    Return [VNum neg_zero] /\
  findDuplicates (Arr [None; Some (VNum (of_Z 1)); None]) = Return [VUndefined].
Proof. vm_compute. repeat split. Qed.

Example count_examples :
  count (Arr []) = Return {| obj_prototype := None; obj_properties := ∅ |} /\
  count (Arr [Some (VObj 1); Some (VObj 2)]) =
    Return {| obj_prototype := None;
              obj_properties := {[ "[object Object]" := 2 ]} |} /\
  count (Arr [Some (VStr "toString"); None]) =
    Return {| obj_prototype := None;
              obj_properties := {[ "toString" := 1; "undefined" := 1 ]} |}.
Proof. vm_compute. repeat split. Qed.

Example sum_examples :
  sum (NonArr (VStr "12")) = Throw (TypeError "sum expects an array") /\
  sum (Arr [Some (VNum (of_Z 1)); None; Some (VNum (of_Z 3))]) = Return (of_Z 4) /\
  sum (Arr [Some (VStr "Infinity"); Some (VStr "-Infinity")]) = Return NaN /\
  sum (Arr [Some (VNum (of_Z 1)); None; Some (VNum NaN)]) =
    Throw (TypeError "sum: element at index 2 is not numeric: null").
Proof. vm_compute. repeat split. Qed.

(** * Further properties *)

(** ** [sum] *)

Section SumMore.

(** The returned total does not depend on the index the reduction starts
    from, nor on the holes. *)
Lemma reduce_sum_dense (elems : list slot) (i j : nat) (acc x : number) :
  reduce sum_step elems i acc = Return x <->
  reduce sum_step (map Some (present elems)) j acc = Return x.
Proof.
  revert i j acc.
  induction elems as [|[v|] elems IH]; intros i j acc; simpl.
  - reflexivity.
  - unfold sum_step at 1 3. destruct (isNaN (Number v)).
    + split; discriminate.
    + apply IH.
  - apply IH.
Qed.

Lemma reduce_sum_returns (elems : list slot) (i : nat) (acc x : number) :
  reduce sum_step elems i acc = Return x -> Forall coercible (present elems).
Proof.
  revert i acc.
  induction elems as [|[v|] elems IH]; intros i acc; simpl.
  - constructor.
  - unfold sum_step at 1. destruct (isNaN (Number v)) eqn:Hv; [discriminate|].
    intros Hred. constructor; [exact Hv|]. apply (IH _ _ Hred).
  - apply IH.
Qed.

(** X1. [sum] skips the holes of a sparse array: it returns a total on an
    array exactly when it returns that total on the array without its
    holes. *)
Theorem sum_skips_holes (elems : list slot) (x : number) :
  sum (Arr elems) = Return x <->
  sum (Arr (map Some (present elems))) = Return x.
Proof. unfold sum. simpl. apply reduce_sum_dense. Qed.

(** X2. [sum] stops at the first element that is not coercible: when it
    throws on an array, it throws the same exception on every array that
    extends it, whatever the elements that follow. *)
Theorem sum_throw_is_final (l1 l2 : list slot) (e : exception) :
  sum (Arr l1) = Throw e ->
  sum (Arr (l1 ++ l2)) = Throw e.
Proof.
  unfold sum. simpl. intros Hthrow. rewrite reduce_app, Hthrow. reflexivity.
Qed.

Lemma sum_throw_is_final_witness :
  sum (Arr [Some (VStr "x")]) =
    Throw (InvalidElement 0 (VStr "x")) /\
  sum (Arr ([Some (VStr "x")] ++ [Some (VStr "y"); Some (VNum (of_Z 1))])) =
    Throw (InvalidElement 0 (VStr "x")).
Proof.
  assert (H : sum (Arr [Some (VStr "x")]) = Throw (InvalidElement 0 (VStr "x")))
    by (vm_compute; reflexivity).
  split; [exact H|].
  exact (sum_throw_is_final _ [Some (VStr "y"); Some (VNum (of_Z 1))] _ H).
Defined.

(** X3. [sum] on a concatenation carries the total of the first array on:
    when [sum] returns [x] on the first array and the elements of the
    second are coercible, the total is the fold of the addition over the
    second array from [x]. *)
Theorem sum_app (l1 l2 : list slot) (x : number) :
  sum (Arr l1) = Return x ->
  Forall coercible (present l2) ->
  sum (Arr (l1 ++ l2)) = Return (fold_left add (map Number (present l2)) x).
Proof.
  unfold sum. simpl. intros Hsum Hall.
  rewrite reduce_app, Hsum. apply reduce_sum_coercible. exact Hall.
Qed.

Lemma sum_app_witness :
  sum (Arr [Some (VStr "0.1"); Some (VStr "0.2")]) =
    Return (Number (VStr "0.30000000000000004")) /\
  Forall coercible (present [None; Some (VStr "0.3")]) /\
  sum (Arr ([Some (VStr "0.1"); Some (VStr "0.2")] ++ [None; Some (VStr "0.3")])) =
    Return (Number (VStr "0.6000000000000001")).
Proof.
  assert (H1 : sum (Arr [Some (VStr "0.1"); Some (VStr "0.2")]) =
                 Return (Number (VStr "0.30000000000000004")))
    by (vm_compute; reflexivity).
  assert (H2 : Forall coercible (present [None; Some (VStr "0.3")]))
    by (repeat constructor).
  split; [exact H1|]. split; [exact H2|].
  etransitivity; [exact (sum_app _ _ _ H1 H2)|vm_compute; reflexivity].
Defined.

(** X4. [sum] returns a total exactly when every element of the array is
    coercible. *)
Theorem sum_returns_iff_coercible (elems : list slot) :
  (exists x, sum (Arr elems) = Return x) <-> Forall coercible (present elems).
Proof.
  split.
  - intros [x Hsum]. unfold sum in Hsum. simpl in Hsum.
    apply reduce_sum_returns in Hsum. exact Hsum.
  - intros Hall. eexists. unfold sum. simpl.
    apply reduce_sum_coercible. exact Hall.
Qed.

(** Rounding a mantissa that is not negative gives a number. *)
Lemma shr_1_nonneg (mrs : shr_record) :
  (0 <= shr_m mrs)%Z -> (0 <= shr_m (shr_1 mrs))%Z.
Proof. destruct mrs as [[|[p|p|]|p] r t]; simpl; lia. Qed.

Lemma iter_shr_1_nonneg (p : positive) (mrs : shr_record) :
  (0 <= shr_m mrs)%Z -> (0 <= shr_m (SpecFloat.iter_pos shr_1 p mrs))%Z.
Proof.
  revert mrs. induction p as [p IH|p IH|]; intros mrs Hm; simpl.
  - apply IH, IH, shr_1_nonneg, Hm.
  - apply IH, IH, Hm.
  - apply shr_1_nonneg, Hm.
Qed.

Lemma shr_fexp_nonneg (m e : Z) (l : location) :
  (0 <= m)%Z -> (0 <= shr_m (fst (shr_fexp prec emax m e l)))%Z.
Proof.
  intros Hm. unfold shr_fexp, shr.
  assert (H0 : (0 <= shr_m (shr_record_of_loc m l))%Z).
  { destruct l as [|[]]; exact Hm. }
  destruct (fexp prec emax (Zdigits2 m + e) - e)%Z; simpl; try exact H0.
  apply iter_shr_1_nonneg, H0.
Qed.

Lemma round_nearest_even_nonneg (m : Z) (l : location) :
  (0 <= m)%Z -> (0 <= round_nearest_even m l)%Z.
Proof.
  intros Hm. destruct l as [|[]]; simpl; try lia.
  destruct (Z.even m); lia.
Qed.

Lemma binary_round_aux_not_NaN (s : bool) (m e : Z) (l : location) :
  (0 <= m)%Z -> isNaN (binary_round_aux prec emax s m e l) = false.
Proof.
  intros Hm. unfold binary_round_aux.
  pose proof (shr_fexp_nonneg m e l Hm) as H1.
  destruct (shr_fexp prec emax m e l) as [mrs' e']. simpl in H1.
  pose proof (round_nearest_even_nonneg _ (loc_of_shr_record mrs') H1) as H2.
  pose proof (shr_fexp_nonneg _ e' loc_Exact H2) as H3.
  destruct (shr_fexp prec emax
              (round_nearest_even (shr_m mrs') (loc_of_shr_record mrs')) e' loc_Exact)
    as [mrs'' e'']. simpl in H3.
  destruct (shr_m mrs'') as [|p|p]; [reflexivity| |lia].
  destruct (e'' <=? emax - prec)%Z; reflexivity.
Qed.

Lemma binary_normalize_not_NaN (m e : Z) (szero : bool) :
  isNaN (binary_normalize prec emax m e szero) = false.
Proof.
  destruct m as [|p|p]; simpl; [reflexivity| |];
    unfold binary_round;
    destruct (shl_align p e (fexp prec emax (Z.pos (digits2_pos p) + e)))
      as [mz ez]; apply binary_round_aux_not_NaN; lia.
Qed.

(** An addition gives [NaN] only from [NaN] or from an infinity. *)
Lemma add_not_NaN (x y : number) :
  isNaN x = false -> isNaN y = false -> is_infinite y = false ->
  isNaN (add x y) = false.
Proof.
  destruct x as [sx|sx| |sx mx ex], y as [sy|sy| |sy my ey];
    simpl; try discriminate; intros _ _ _; try reflexivity.
  - destruct sx, sy; reflexivity.
  - apply binary_normalize_not_NaN.
Qed.

Lemma fold_add_not_NaN (ns : list number) (acc : number) :
  isNaN acc = false ->
  Forall (fun n => isNaN n = false /\ is_infinite n = false) ns ->
  isNaN (fold_left add ns acc) = false.
Proof.
  revert acc. induction ns as [|n ns IH]; intros acc Hacc Hall; simpl.
  - exact Hacc.
  - apply Forall_cons in Hall as [[Hn Hinf] Hall].
    apply IH; [|exact Hall]. apply add_not_NaN; assumption.
Qed.

(** X5. The total [sum] returns is [NaN] only if an element is coerced to
    an infinity: the guard of the loop tests the coerced element, not the
    total, and additions of numbers that are not infinite never give
    [NaN], even when the total overflows. *)
Theorem sum_NaN_needs_infinity (elems : list slot) (x : number) :
  sum (Arr elems) = Return x ->
  Forall (fun v => is_infinite (Number v) = false) (present elems) ->
  isNaN x = false.
Proof.
  unfold sum. simpl. intros Hsum Hfin.
  pose proof (reduce_sum_returns _ _ _ _ Hsum) as Hall.
  rewrite (reduce_sum_coercible _ _ _ Hall) in Hsum. injection Hsum as <-.
  apply fold_add_not_NaN; [reflexivity|].
  apply Forall_fmap.
  revert Hfin. induction Hall as [|v vs Hv Hvs IH]; intros Hfin; constructor.
  - apply Forall_cons in Hfin as [Hfin _]. split; [exact Hv|exact Hfin].
  - apply IH. apply Forall_cons in Hfin as [_ Hfin]. exact Hfin.
Qed.

Lemma sum_NaN_needs_infinity_witness :
  let elems := [Some (VStr "1e308"); Some (VStr "1e308"); Some (VStr "-1e308")] in
  sum (Arr elems) = Return (S754_infinity false) /\
  Forall (fun v => is_infinite (Number v) = false) (present elems) /\
  isNaN (S754_infinity false) = false.
Proof.
  intros elems.
  assert (H1 : sum (Arr elems) = Return (S754_infinity false))
    by (vm_compute; reflexivity).
  assert (H2 : Forall (fun v => is_infinite (Number v) = false) (present elems))
    by (repeat constructor).
  split; [exact H1|]. split; [exact H2|].
  exact (sum_NaN_needs_infinity elems _ H1 H2).
Defined.

End SumMore.

(** ** [findDuplicates] *)

Section FindDuplicatesMore.

(** [findDuplicates] on an array: what the second loop emits from the set
    of the keys that occur twice or more. *)
Lemma findDuplicates_pending (elems : list slot) :
  exists duplicates : JSSet.t,
    findDuplicates (Arr elems) = Return (emitted (items elems) duplicates) /\
    forall v, canonical_key v ∈ duplicates <-> 2 <= occurrences v (items elems).
Proof.
  destruct (findDuplicates_emitted elems) as (counts & duplicates & Htally & Hfind).
  exists duplicates. split; [exact Hfind|].
  apply (tally_invariant _ _ _ Htally).
Qed.

Lemma items_dense (l : list value) : items (map Some l) = l.
Proof. unfold items. rewrite map_map. apply map_id. Qed.

Lemma emitted_none (l : list value) (d : JSSet.t) :
  (forall x, x ∈ l -> canonical_key x ∉ d) -> emitted l d = [].
Proof.
  revert d. induction l as [|x l IH]; intros d Hnone; simpl; [reflexivity|].
  destruct (JSSet.has d x) eqn:Hx.
  - apply has_true in Hx. exfalso. apply (Hnone x); [left|exact Hx].
  - apply IH. intros y Hy. apply Hnone. right. exact Hy.
Qed.

(** The items of [l] split into the occurrences of [v] and the rest. *)
Lemma length_occurrences_rest (v : value) (l : list value) :
  length l = occurrences v l + length (filter (fun w => ~ same_value_zero w v) l).
Proof.
  induction l as [|x l IH]; [reflexivity|].
  rewrite occurrences_cons, filter_cons.
  destruct (decide (same_value_zero x v)) as [Hx|Hx].
  - destruct (decide (~ same_value_zero x v)); [contradiction|]. simpl. lia.
  - destruct (decide (~ same_value_zero x v)); [|contradiction]. simpl. lia.
Qed.

Lemma occurrences_rest (v u : value) (l : list value) :
  ~ same_value_zero u v ->
  occurrences u (filter (fun w => ~ same_value_zero w v) l) = occurrences u l.
Proof.
  intros Huv. induction l as [|x l IH]; [reflexivity|].
  rewrite filter_cons, (occurrences_cons u x l).
  destruct (decide (~ same_value_zero x v)) as [Hx|Hx].
  - rewrite occurrences_cons, IH. reflexivity.
  - rewrite IH.
    destruct (decide (same_value_zero x u)) as [Hxu|Hxu]; [|reflexivity].
    exfalso. apply Hx. intros Hxv. apply Huv.
    unfold same_value_zero in *. congruence.
Qed.

(** Values with different keys that occur [n] times each take [n] items
    each. *)
Lemma length_distinct_occurrences (n : nat) (vs l : list value) :
  NoDup (map canonical_key vs) ->
  (forall v, v ∈ vs -> n <= occurrences v l) ->
  n * length vs <= length l.
Proof.
  revert l. induction vs as [|v vs IH]; intros l Hnd Hocc; simpl; [lia|].
  apply NoDup_cons in Hnd as [Hv Hnd].
  rewrite (length_occurrences_rest v l).
  assert (Hhead : n <= occurrences v l) by (apply Hocc; left).
  assert (Hrest : n * length vs <=
                  length (filter (fun w => ~ same_value_zero w v) l)).
  { apply IH; [exact Hnd|]. intros u Hu.
    rewrite occurrences_rest; [apply Hocc; right; exact Hu|].
    intros Huv. apply Hv. rewrite <- Huv.
    apply list_elem_of_In, in_map, list_elem_of_In. exact Hu. }
  lia.
Qed.

(** X6. The result of [findDuplicates] has at most half as many entries
    as the array has slots. *)
Theorem findDuplicates_length (elems : list slot) :
  exists result,
    findDuplicates (Arr elems) = Return result /\
    2 * length result <= length elems.
Proof.
  destruct (findDuplicates_pending elems) as (d & Hfind & Hd).
  exists (emitted (items elems) d). split; [exact Hfind|].
  replace (length elems) with (length (items elems))
    by (unfold items; apply length_map).
  apply length_distinct_occurrences; [apply emitted_NoDup|].
  intros v Hv. apply emitted_sound in Hv as [_ Hv]. apply Hd. exact Hv.
Qed.

(** X7. [findDuplicates] on its own result returns the empty sequence:
    the result holds no value twice. *)
Theorem findDuplicates_twice (elems : list slot) (result : list value) :
  findDuplicates (Arr elems) = Return result ->
  findDuplicates (Arr (map Some result)) = Return [].
Proof.
  intros Hfind.
  destruct (findDuplicates_pending elems) as (d & Hfind' & _).
  rewrite Hfind' in Hfind. injection Hfind as <-.
  destruct (findDuplicates_pending (map Some (emitted (items elems) d)))
    as (d' & -> & Hd').
  rewrite items_dense in *. f_equal.
  apply emitted_none. intros x _ Hx.
  apply Hd' in Hx.
  pose proof (occurrences_NoDup x _ (emitted_NoDup (items elems) d)). lia.
Qed.

Lemma findDuplicates_twice_witness :
  let elems := [Some (VStr "a"); Some (VStr "b"); Some (VStr "a"); Some (VStr "a");
                Some (VStr "b")] in
  findDuplicates (Arr elems) = Return [VStr "a"; VStr "b"] /\
  findDuplicates (Arr (map Some [VStr "a"; VStr "b"])) = Return [].
Proof.
  intros elems.
  assert (H : findDuplicates (Arr elems) = Return [VStr "a"; VStr "b"])
    by (vm_compute; reflexivity).
  split; [exact H|]. exact (findDuplicates_twice elems _ H).
Defined.

Lemma occurrences_Permutation (v : value) (l1 l2 : list value) :
  l1 ≡ₚ l2 -> occurrences v l1 = occurrences v l2.
Proof. intros Hp. unfold occurrences. rewrite Hp. reflexivity. Qed.

Lemma emitted_keys (l : list value) (d : JSSet.t) (k : value) :
  k ∈ map canonical_key (emitted l d) <->
  k ∈ d /\ exists v, v ∈ l /\ canonical_key v = k.
Proof.
  split.
  - intros Hk. apply list_elem_of_In, in_map_iff in Hk as (w & <- & Hw).
    apply list_elem_of_In, emitted_sound in Hw as [Hl Hd].
    split; [exact Hd|]. exists w. split; [exact Hl|reflexivity].
  - intros (Hd & v & Hv & <-).
    destruct (emitted_complete l d v Hv Hd) as (w & Hw & Hwv).
    rewrite <- Hwv. apply list_elem_of_In, in_map, list_elem_of_In. exact Hw.
Qed.

(** X8. Reordering the array changes the order of the result at most: the
    results on two arrays with the same slots hold the same keys. *)
Theorem findDuplicates_Permutation (elems1 elems2 : list slot)
    (result1 result2 : list value) :
  elems1 ≡ₚ elems2 ->
  findDuplicates (Arr elems1) = Return result1 ->
  findDuplicates (Arr elems2) = Return result2 ->
  map canonical_key result1 ≡ₚ map canonical_key result2.
Proof.
  intros Hp Hfind1 Hfind2.
  destruct (findDuplicates_pending elems1) as (d1 & Hfind1' & Hd1).
  destruct (findDuplicates_pending elems2) as (d2 & Hfind2' & Hd2).
  rewrite Hfind1' in Hfind1. injection Hfind1 as <-.
  rewrite Hfind2' in Hfind2. injection Hfind2 as <-.
  assert (Hitems : items elems1 ≡ₚ items elems2).
  { unfold items. apply Permutation_map. exact Hp. }
  apply NoDup_Permutation; [apply emitted_NoDup|apply emitted_NoDup|].
  intros k. rewrite !emitted_keys. split.
  - intros (Hk & v & Hv & <-). split.
    + apply Hd2. rewrite <- (occurrences_Permutation v _ _ Hitems).
      apply Hd1. exact Hk.
    + exists v. split; [|reflexivity]. rewrite <- Hitems. exact Hv.
  - intros (Hk & v & Hv & <-). split.
    + apply Hd1. rewrite (occurrences_Permutation v _ _ Hitems).
      apply Hd2. exact Hk.
    + exists v. split; [|reflexivity]. rewrite Hitems. exact Hv.
Qed.

Lemma findDuplicates_Permutation_witness :
  let elems1 := [Some (VNum neg_zero); Some (VStr "a"); Some (VNum pos_zero);
                 Some (VStr "a")] in
  let elems2 := [Some (VStr "a"); Some (VNum pos_zero); Some (VStr "a");
                 Some (VNum neg_zero)] in
  elems1 ≡ₚ elems2 /\
  findDuplicates (Arr elems1) = Return [VNum neg_zero; VStr "a"] /\
  findDuplicates (Arr elems2) = Return [VStr "a"; VNum pos_zero] /\
  map canonical_key [VNum neg_zero; VStr "a"] ≡ₚ
    map canonical_key [VStr "a"; VNum pos_zero].
Proof.
  intros elems1 elems2.
  assert (Hp : elems1 ≡ₚ elems2).
  { exact (Permutation_rev elems1). }
  assert (H1 : findDuplicates (Arr elems1) = Return [VNum neg_zero; VStr "a"])
    by (vm_compute; reflexivity).
  assert (H2 : findDuplicates (Arr elems2) = Return [VStr "a"; VNum pos_zero])
    by (vm_compute; reflexivity).
  split; [exact Hp|]. split; [exact H1|]. split; [exact H2|].
  exact (findDuplicates_Permutation elems1 elems2 _ _ Hp H1 H2).
Defined.

Lemma emitted_mono (l : list value) (d d' : JSSet.t) :
  (forall v, canonical_key v ∈ d -> canonical_key v ∈ d') ->
  emitted l d `sublist_of` emitted l d'.
Proof.
  revert d d'. induction l as [|x l IH]; intros d d' Hsub; simpl.
  - constructor.
  - destruct (JSSet.has d x) eqn:Hx, (JSSet.has d' x) eqn:Hx'.
    + apply sublist_skip, IH. intros v Hv.
      apply elem_of_delete in Hv as [Hv Hne].
      apply elem_of_delete. split; [apply Hsub; exact Hv|exact Hne].
    + apply has_true in Hx. apply has_false in Hx'.
      exfalso. apply Hx', Hsub, Hx.
    + apply sublist_cons, IH. intros v Hv.
      apply has_false in Hx.
      apply elem_of_delete. split; [apply Hsub; exact Hv|].
      intros Heq. apply Hx. rewrite <- Heq. exact Hv.
    + apply IH, Hsub.
Qed.

Lemma emitted_app_l (l1 l2 : list value) (d : JSSet.t) :
  emitted l1 d `sublist_of` emitted (l1 ++ l2) d.
Proof.
  revert d. induction l1 as [|x l1 IH]; intros d; simpl.
  - apply sublist_nil_l.
  - destruct (JSSet.has d x); [apply sublist_skip|]; apply IH.
Qed.

(** X9. Slots added at the end of an array remove no duplicate and do not
    reorder the ones found: the result on an array is a subsequence of the
    result on each array that extends it. *)
Theorem findDuplicates_extension (l1 l2 : list slot) (result1 result12 : list value) :
  findDuplicates (Arr l1) = Return result1 ->
  findDuplicates (Arr (l1 ++ l2)) = Return result12 ->
  result1 `sublist_of` result12.
Proof.
  intros Hfind1 Hfind12.
  destruct (findDuplicates_pending l1) as (d1 & Hfind1' & Hd1).
  destruct (findDuplicates_pending (l1 ++ l2)) as (d12 & Hfind12' & Hd12).
  rewrite Hfind1' in Hfind1. injection Hfind1 as <-.
  rewrite Hfind12' in Hfind12. injection Hfind12 as <-.
  assert (Hitems : items (l1 ++ l2) = (items l1 ++ items l2)%list).
  { unfold items. apply map_app. }
  rewrite Hitems in *.
  transitivity (emitted (items l1) d12); [|apply emitted_app_l].
  apply emitted_mono. intros v Hv.
  apply Hd12. apply Hd1 in Hv.
  unfold occurrences in *. rewrite filter_app, length_app. lia.
Qed.

Lemma findDuplicates_extension_witness :
  let l1 := [Some (VStr "a"); Some (VStr "b"); Some (VStr "c"); Some (VStr "c")] in
  let l2 := [Some (VStr "a"); Some (VStr "c")] in
  findDuplicates (Arr l1) = Return [VStr "c"] /\
  findDuplicates (Arr (l1 ++ l2)) = Return [VStr "a"; VStr "c"] /\
  [VStr "c"] `sublist_of` [VStr "a"; VStr "c"].
Proof.
  intros l1 l2.
  assert (H1 : findDuplicates (Arr l1) = Return [VStr "c"])
    by (vm_compute; reflexivity).
  assert (H2 : findDuplicates (Arr (l1 ++ l2)) = Return [VStr "a"; VStr "c"])
    by (vm_compute; reflexivity).
  split; [exact H1|]. split; [exact H2|].
  exact (findDuplicates_extension l1 l2 _ _ H1 H2).
Defined.

End FindDuplicatesMore.

(** ** [count] *)

Section CountMore.

(** The count stored under a key after the loop over [l]. *)
Lemma count_lookup (l : list value) (k : string) :
  obj_properties (fold_left count_step l (Object_create None)) !! k =
    if decide (key_occurrences k l = 0) then None else Some (key_occurrences k l).
Proof.
  destruct (count_invariant l) as (_ & Hkeys & Hpos & _).
  specialize (Hkeys k). specialize (Hpos k). unfold own_get in *.
  destruct (obj_properties _ !! k) as [n|]; simpl in Hkeys; rewrite <- Hkeys.
  - destruct (decide (n = 0)) as [->|Hn]; [contradiction|reflexivity].
  - reflexivity.
Qed.

Lemma count_prototype (l : list value) :
  obj_prototype (fold_left count_step l (Object_create None)) = None.
Proof. apply (count_invariant l). Qed.

Lemma object_eq (o1 o2 : object) :
  obj_prototype o1 = obj_prototype o2 ->
  obj_properties o1 = obj_properties o2 ->
  o1 = o2.
Proof. destruct o1, o2. simpl. intros -> ->. reflexivity. Qed.

(** X10. [count] maps a key to the number of items whose string form is
    that key, and holds no key that no item has: a key with no item reads
    [undefined], never 0. *)
Theorem count_lookup_is_key_occurrences (elems : list slot) :
  exists o : object,
    count (Arr elems) = Return o /\
    forall k : string,
      obj_properties o !! k =
        if decide (key_occurrences k (items elems) = 0) then None
        else Some (key_occurrences k (items elems)).
Proof.
  eexists. split; [reflexivity|]. intros k. apply count_lookup.
Qed.

Lemma key_occurrences_Permutation (k : string) (l1 l2 : list value) :
  l1 ≡ₚ l2 -> key_occurrences k l1 = key_occurrences k l2.
Proof. intros Hp. unfold key_occurrences. rewrite Hp. reflexivity. Qed.

(** X11. [count] does not depend on the order of the array: it returns
    the same mapping on two arrays with the same slots. *)
Theorem count_Permutation (elems1 elems2 : list slot) :
  elems1 ≡ₚ elems2 ->
  count (Arr elems1) = count (Arr elems2).
Proof.
  intros Hp. unfold count. simpl. f_equal.
  assert (Hitems : items elems1 ≡ₚ items elems2).
  { unfold items. apply Permutation_map. exact Hp. }
  apply object_eq.
  - rewrite !count_prototype. reflexivity.
  - apply map_eq. intros k. rewrite !count_lookup.
    rewrite (key_occurrences_Permutation k _ _ Hitems). reflexivity.
Qed.

Lemma count_Permutation_witness :
  let elems1 := [Some (VNum (of_Z 1)); Some (VStr "a"); None; Some (VStr "1")] in
  elems1 ≡ₚ rev elems1 /\
  count (Arr elems1) = count (Arr (rev elems1)).
Proof.
  intros elems1.
  assert (Hp : elems1 ≡ₚ rev elems1) by exact (Permutation_rev elems1).
  split; [exact Hp|]. exact (count_Permutation _ _ Hp).
Defined.

(** X12. The counts of a concatenation are the sums of the counts of its
    parts, a missing key counting as 0. *)
Theorem count_app (l1 l2 : list slot) (o1 o2 o : object) (k : string) :
  count (Arr l1) = Return o1 ->
  count (Arr l2) = Return o2 ->
  count (Arr (l1 ++ l2)) = Return o ->
  or_zero (obj_properties o !! k) =
    or_zero (obj_properties o1 !! k) + or_zero (obj_properties o2 !! k).
Proof.
  unfold count. simpl. intros [= <-] [= <-] [= <-].
  rewrite !count_lookup.
  assert (Happ : key_occurrences k (items (l1 ++ l2)) =
                 key_occurrences k (items l1) + key_occurrences k (items l2)).
  { unfold key_occurrences, items. rewrite map_app, filter_app, length_app.
    reflexivity. }
  rewrite Happ.
  repeat match goal with |- context [decide ?P] => destruct (decide P) end;
    simpl; lia.
Qed.

Lemma count_app_witness :
  let l1 := [Some (VNum (of_Z 1)); Some (VStr "a")] in
  let l2 := [Some (VStr "1"); Some (VStr "b")] in
  let o1 := {| obj_prototype := None;
               obj_properties := {[ "1" := 1; "a" := 1 ]} |} in
  let o2 := {| obj_prototype := None;
               obj_properties := {[ "1" := 1; "b" := 1 ]} |} in
  let o := {| obj_prototype := None;
              obj_properties := {[ "1" := 2; "a" := 1; "b" := 1 ]} |} in
  count (Arr l1) = Return o1 /\
  count (Arr l2) = Return o2 /\
  count (Arr (l1 ++ l2)) = Return o /\
  or_zero (obj_properties o !! "1") =
    or_zero (obj_properties o1 !! "1") + or_zero (obj_properties o2 !! "1").
Proof.
  intros l1 l2 o1 o2 o.
  assert (H1 : count (Arr l1) = Return o1) by (vm_compute; reflexivity).
  assert (H2 : count (Arr l2) = Return o2) by (vm_compute; reflexivity).
  assert (H : count (Arr (l1 ++ l2)) = Return o) by (vm_compute; reflexivity).
  split; [exact H1|]. split; [exact H2|]. split; [exact H|].
  exact (count_app l1 l2 o1 o2 o "1" H1 H2 H).
Defined.

(** A mapping whose counts are positive has at most as many keys as its
    counts add up to. *)
Lemma size_le_sum (m : gmap string nat) :
  (forall k n, m !! k = Some n -> 0 < n) ->
  size m <= map_fold (fun (_ : string) (n acc : nat) => n + acc) 0 m.
Proof.
  induction m as [|k n m Hk IH] using map_ind; intros Hpos.
  - rewrite map_size_empty. lia.
  - rewrite map_size_insert_None by exact Hk.
    rewrite map_fold_insert_L.
    + assert (0 < n) by (apply (Hpos k); apply lookup_insert_eq).
      assert (size m <= map_fold (fun (_ : string) (n acc : nat) => n + acc) 0 m).
      { apply IH. intros k' n' Hk'. apply (Hpos k').
        rewrite lookup_insert_ne; [exact Hk'|]. intros ->. congruence. }
      lia.
    + intros. lia.
    + exact Hk.
Qed.

(** X13. The mapping [count] returns has at most as many keys as the
    array has slots, and each of its counts is at least 1. *)
Theorem count_size (elems : list slot) :
  exists o : object,
    count (Arr elems) = Return o /\
    size (obj_properties o) <= length elems /\
    forall k n, obj_properties o !! k = Some n -> 1 <= n.
Proof.
  eexists. split; [reflexivity|].
  destruct (count_invariant (items elems)) as (_ & _ & Hpos & Htotal).
  assert (Hge : forall k n,
             obj_properties (fold_left count_step (items elems) (Object_create None))
               !! k = Some n -> 0 < n).
  { intros k n Hk. destruct n as [|n]; [|lia].
    exfalso. apply (Hpos k). exact Hk. }
  split; [|exact Hge].
  replace (length elems) with (length (items elems))
    by (unfold items; apply length_map).
  rewrite <- Htotal. apply size_le_sum. exact Hge.
Qed.

End CountMore.

(** ** [findDuplicates] and [count] together *)

Section DuplicatesAndCounts.

Lemma key_occurrences_pos (k : string) (l : list value) :
  0 < key_occurrences k l -> exists v, v ∈ l /\ String_ v = k.
Proof.
  unfold key_occurrences. induction l as [|x l IH]; simpl; [lia|].
  rewrite filter_cons. destruct (decide (String_ x = k)) as [Hx|Hx].
  - intros _. exists x. split; [left|exact Hx].
  - intros Hpos. destruct (IH Hpos) as (v & Hv & Hk).
    exists v. split; [right; exact Hv|exact Hk].
Qed.

Lemma key_occurrences_le_occurrences (v : value) (l : list value) :
  (forall w, w ∈ l -> String_ w = String_ v -> same_value_zero w v) ->
  key_occurrences (String_ v) l <= occurrences v l.
Proof.
  unfold key_occurrences, occurrences.
  induction l as [|x l IH]; intros Hinj; [reflexivity|].
  assert (IH' : length (filter (fun w => String_ w = String_ v) l) <=
                length (filter (fun w => same_value_zero w v) l)).
  { apply IH. intros w Hw. apply Hinj. right. exact Hw. }
  rewrite !filter_cons.
  destruct (decide (String_ x = String_ v)) as [Hx|Hx].
  - destruct (decide (same_value_zero x v)) as [Hs|Hs]; [simpl; lia|].
    exfalso. apply Hs, Hinj; [left|exact Hx].
  - destruct (decide (same_value_zero x v)); simpl; lia.
Qed.

(** X14. On an array in which values with the same string form are the
    same value, a key that [count] maps to 2 or more is the string form
    of a value of [findDuplicates]. *)
Theorem counted_twice_is_duplicate (elems : list slot)
    (result : list value) (o : object) (k : string) (n : nat) :
  (forall v w, v ∈ items elems -> w ∈ items elems ->
               String_ v = String_ w -> same_value_zero v w) ->
  findDuplicates (Arr elems) = Return result ->
  count (Arr elems) = Return o ->
  obj_properties o !! k = Some n ->
  2 <= n ->
  exists v, v ∈ result /\ String_ v = k.
Proof.
  intros Hinj Hfind Hcount Hk Hn.
  destruct (findDuplicates_pending elems) as (d & Hfind' & Hd).
  rewrite Hfind' in Hfind. injection Hfind as <-.
  unfold count in Hcount. simpl in Hcount. injection Hcount as <-.
  rewrite count_lookup in Hk.
  destruct (decide (key_occurrences k (items elems) = 0)); [discriminate|].
  injection Hk as <-.
  destruct (key_occurrences_pos k (items elems)) as (v & Hv & <-); [lia|].
  assert (H2 : 2 <= occurrences v (items elems)).
  { etransitivity; [exact Hn|]. apply key_occurrences_le_occurrences.
    intros w Hw Heq. apply Hinj; assumption. }
  apply Hd in H2.
  destruct (emitted_complete _ _ _ Hv H2) as (w & Hw & Hwv).
  exists w. split; [exact Hw|]. apply same_value_zero_String. exact Hwv.
Qed.

Lemma counted_twice_is_duplicate_witness :
  let elems := [Some (VStr "a"); Some (VNum (of_Z 2)); Some (VStr "a"); None] in
  let o := {| obj_prototype := None;
              obj_properties := {[ "a" := 2; "2" := 1; "undefined" := 1 ]} |} in
  findDuplicates (Arr elems) = Return [VStr "a"] /\
  count (Arr elems) = Return o /\
  exists v, v ∈ [VStr "a"] /\ String_ v = "a".
Proof.
  intros elems o.
  assert (Hfind : findDuplicates (Arr elems) = Return [VStr "a"])
    by (vm_compute; reflexivity).
  assert (Hcount : count (Arr elems) = Return o) by (vm_compute; reflexivity).
  split; [exact Hfind|]. split; [exact Hcount|].
  apply (counted_twice_is_duplicate elems [VStr "a"] o "a" 2).
  - intros v w Hv Hw.
    repeat (apply elem_of_cons in Hv as [->|Hv]);
      repeat (apply elem_of_cons in Hw as [->|Hw]);
      try (inversion Hv); try (inversion Hw);
      vm_compute; congruence.
  - exact Hfind.
  - exact Hcount.
  - vm_compute. reflexivity.
  - lia.
Defined.

End DuplicatesAndCounts.
